(** * webgo, package [sse]: the client registry of [extensions/sse/client.go]

    The registry keeps a map from client id to [*Client].  The map is owned by
    one goroutine, [listener], which serves the requests that the public
    methods send on the [events] channel, one at a time and in arrival order.

    The embedding is shallow.  Go values that are shared by reference
    ([*Client], [chan *Message], the per-request response channels) live in
    stores of a [World] and are named by their index; the methods are
    functions from [World] to a [result]. *)

From Stdlib Require Import ZArith.
From stdpp Require Import gmap strings list fin_maps.

Module Sse.

Open Scope Z_scope.

(** ** Outcomes *)

(** A Go call returns, panics (nil dereference, [make] with a size the
    runtime refuses), or blocks for ever (send on a nil channel, or on an unbuffered channel
    nobody receives from; receive with nobody left to send). *)
Inductive result (A : Type) : Type :=
  | Ok (a : A)
  | Panic
  | Deadlock.
Arguments Ok {A} a.
Arguments Panic {A}.
Arguments Deadlock {A}.

#[global] Instance result_ret : MRet result := λ A a, Ok a.

#[global] Instance result_bind : MBind result := λ A B k r,
  match r with
  | Ok a => k a
  | Panic => Panic
  | Deadlock => Deadlock
  end.

#[global] Instance result_fmap : FMap result := λ A B f r,
  match r with
  | Ok a => Ok (f a)
  | Panic => Panic
  | Deadlock => Deadlock
  end.

(** ** Data, as in the source *)

(** [context.Context] and [http.ResponseWriter] are interfaces of the Go
    standard library.  The registry stores them and, for the context, calls
    [Done()]; a value is an opaque handle here.  A context is never nil (the
    contract of package [context]). *)
Record context_Context := MkContext { ctx_handle : nat }.
Record http_ResponseWriter := MkResponseWriter { rw_handle : nat }.

#[global] Instance context_eq_dec : EqDecision context_Context.
Proof. solve_decision. Defined.
#[global] Instance rw_eq_dec : EqDecision http_ResponseWriter.
Proof. solve_decision. Defined.

(** [type Client struct].  [Msg] names a message channel of the store
    [mchans]. *)
Record Client := MkClient {
  ID : string;
  Msg : nat;
  ResponseWriter : http_ResponseWriter;
  Ctx : context_Context
}.

#[global] Instance Client_eq_dec : EqDecision Client.
Proof. solve_decision. Defined.

(** [type eventType int] with its [iota] constants. *)
Inductive eventType :=
  | eTypeNewClient
  | eTypeClientList
  | eTypeRemoveClient
  | eTypeActiveClientCount
  | eTypeClient.

#[global] Instance eventType_eq_dec : EqDecision eventType.
Proof. solve_decision. Defined.

Definition eventType_String (et : eventType) : string :=
  match et with
  | eTypeNewClient => "new_client"
  | eTypeClientList => "client_list"
  | eTypeRemoveClient => "remove_client"
  | eTypeActiveClientCount => "active_client_count"
  | eTypeClient => "unknown"
  end.

(** [type eventResponse struct].  A [*Client] that may be nil is an
    [option nat]: [None] is nil, [Some p] the record at address [p]. *)
Record eventResponse := MkResponse {
  resp_Clients : list (option nat);
  resp_RemainingClients : Z;
  resp_Client : option nat
}.

#[global] Instance eventResponse_eq_dec : EqDecision eventResponse.
Proof. solve_decision. Defined.

(** [type event struct].  [ev_Response] is nil ([None]) or names a response
    channel of the store [rchans]. *)
Record event := MkEvent {
  ev_Type : eventType;
  ev_ClientID : string;
  ev_Client : option nat;
  ev_Response : option nat
}.

#[global] Instance event_eq_dec : EqDecision event.
Proof. solve_decision. Defined.

(** The [events] channel: its capacity and the requests that were sent and
    are not served yet, oldest first.  The head of [chan_queue] is the request
    the listener has received and is about to serve, the rest is the
    channel's buffer; so a send goes through while at most [chan_cap] requests
    are waiting. *)
Record chan_event := MkChan {
  chan_cap : Z;
  chan_queue : list event
}.

(** [type Clients struct].  The map never holds a nil pointer (the only
    assignment dereferences the pointer first), so its values are
    addresses. *)
Record Clients := MkClients {
  clients : gmap string nat;
  MsgBuffer : Z;
  events : chan_event
}.

(** What the listener does that others can see, in order: calls on a
    client's context and replies on response channels.  [CtxDone ctx] is the
    call [ctx.Done()]: the accessor of the context's channel, whose result
    the listener drops. *)
Inductive action :=
  | CtxDone (ctx : context_Context)
  | Reply (rch : nat) (r : option eventResponse).

#[global] Instance action_eq_dec : EqDecision action.
Proof. solve_decision. Defined.

(** The program state around one registry [cs].
    - [heap]: the allocated [Client] structs; a [*Client] is an index;
    - [mchans]: the allocated [chan *Message], by capacity;
    - [rchans]: the allocated response channels (all unbuffered, each with
      its maker about to receive once): [None] while nothing was delivered,
      [Some r] once [r] (a [*eventResponse], maybe nil) was;
    - [trace]: the listener's visible actions so far;
    - [iter]: the number of map iterations so far (see [MapIteration]). *)
Record World := MkWorld {
  cs : Clients;
  heap : list Client;
  mchans : list Z;
  rchans : list (option (option eventResponse));
  trace : list action;
  iter : nat
}.

Definition set_clients (m : gmap string nat) (w : World) : World :=
  MkWorld (MkClients m (MsgBuffer (cs w)) (events (cs w)))
          (heap w) (mchans w) (rchans w) (trace w) (iter w).

Definition set_queue (q : list event) (w : World) : World :=
  MkWorld (MkClients (clients (cs w)) (MsgBuffer (cs w))
                     (MkChan (chan_cap (events (cs w))) q))
          (heap w) (mchans w) (rchans w) (trace w) (iter w).

Definition set_rchans (r : list (option (option eventResponse))) (w : World) : World :=
  MkWorld (cs w) (heap w) (mchans w) r (trace w) (iter w).

Definition log (a : action) (w : World) : World :=
  MkWorld (cs w) (heap w) (mchans w) (rchans w) (trace w ++ [a]) (iter w).

Definition next_iter (w : World) : World :=
  MkWorld (cs w) (heap w) (mchans w) (rchans w) (trace w) (S (iter w)).

Definition live (w : World) : gmap string nat := clients (cs w).
Definition queue (w : World) : list event := chan_queue (events (cs w)).

(** [len(m)] of a Go map. *)
Definition len (m : gmap string nat) : Z := Z.of_nat (size m).

(** ** Map iteration

    [for k := range m] visits every key once, in an order the Go runtime
    chooses afresh for each loop.  [range_keys n m] is the order of the
    [n]-th loop of the program. *)
Class MapIteration := {
  range_keys : nat → gmap string nat → list string;
  range_keys_perm : ∀ n m, range_keys n m ≡ₚ (map_to_list m).*1
}.

(** One runtime: every loop goes by [map_to_list]. *)
#[export] Program Instance plain_iteration : MapIteration :=
  {| range_keys := λ _ m, (map_to_list m).*1 |}.
Next Obligation. reflexivity. Qed.

(** Another: odd-numbered loops go backwards. *)
Program Definition alternating_iteration : MapIteration :=
  {| range_keys := λ n m,
       if Nat.even n then (map_to_list m).*1 else reverse (map_to_list m).*1 |}.
Next Obligation.
  intros n m. simpl. destruct (Nat.even n); [reflexivity | apply reverse_Permutation].
Qed.

(** ** Making a channel

    [make(chan *Message, n)] returns for the sizes the runtime accepts, from
    0 to [chan_max], the largest buffer it makes on the machine at hand; for
    a negative size and beyond [chan_max] it ends the program (makechan:
    size out of range, or no memory left).  A buffer of ten elements, the
    size [NewClientManager] asks for, is made everywhere. *)
Class MakeChan := {
  chan_max : Z;
  chan_max_ten : 10 ≤ chan_max
}.

(** One machine: buffers of up to 2^20 elements. *)
#[export] Program Instance a_machine : MakeChan := {| chan_max := 1048576 |}.
Next Obligation. done. Qed.

Section registry.
Context {MI : MapIteration} {MC : MakeChan}.

(** ** The listener *)

(** [ev.Response <- r].  The response channels are unbuffered: the send goes
    through when the channel's maker is still waiting for its one reply. *)
Definition send (rch : option nat) (r : option eventResponse) (w : World) : result World :=
  match rch with
  | None => Deadlock
  | Some ch =>
      match rchans w !! ch with
      | Some None => Ok (log (Reply ch r) (set_rchans (<[ch := Some r]> (rchans w)) w))
      | _ => Deadlock
      end
  end.

(** [*p] for a [*Client]. *)
Definition deref (p : nat) (w : World) : result Client :=
  match heap w !! p with
  | Some c => Ok c
  | None => Panic
  end.

(** The snapshot of [case eTypeClientList]: the loop over the keys, appending
    [cs.clients[clientID]] for each. *)
Definition copied (n : nat) (m : gmap string nat) : list (option nat) :=
  (λ clientID, m !! clientID) <$> range_keys n m.

(** The body of the [for ev := range events] loop: the [switch]. *)
Definition listener_step (ev : event) (w : World) : result World :=
  match ev_Type ev with
  | eTypeNewClient =>
      match ev_Client ev with
      | None => Panic
      | Some p =>
          c ← deref p w;
          Ok (set_clients (<[ID c := p]> (live w)) w)
      end
  | eTypeClientList =>
      send (ev_Response ev)
           (Some (MkResponse (copied (iter w) (live w)) 0 None))
           (next_iter w)
  | eTypeRemoveClient =>
      match live w !! ev_ClientID ev with
      | None => send (ev_Response ev) None w
      | Some cli =>
          c ← deref cli w;
          let w1 := log (CtxDone (Ctx c)) w in
          let w2 := set_clients (delete (ev_ClientID ev) (live w1)) w1 in
          send (ev_Response ev) None w2
      end
  | eTypeActiveClientCount => Ok w
  | eTypeClient =>
      send (ev_Response ev)
           (Some (MkResponse [] 0 (live w !! ev_ClientID ev)))
           w
  end.

(** [listener], on the requests that arrive on [events], in order. *)
Fixpoint listener (evs : list event) (w : World) : result World :=
  match evs with
  | [] => Ok w
  | ev :: evs' => w' ← listener_step ev w; listener evs' w'
  end.

(** The listener goroutine takes the oldest waiting request and serves it;
    with nothing waiting it stays blocked on the receive. *)
Definition serve (w : World) : result World :=
  match queue w with
  | [] => Ok w
  | ev :: q => listener_step ev (set_queue q w)
  end.

(** The listener goroutine gets to serve [n] requests (fewer when fewer
    wait). *)
Fixpoint serves (n : nat) (w : World) : result World :=
  match n with
  | O => Ok w
  | S n' => w' ← serve w; serves n' w'
  end.

(** The listener goroutine serves all that waits. *)
Definition drain (w : World) : result World := serves (length (queue w)) w.

(** ** The caller's side *)

(** [make(chan *Message, n)]: panics for a negative [n] and for an [n] the
    runtime does not accept. *)
Definition make_mchan (n : Z) (w : World) : result (nat * World) :=
  if decide (n < 0 ∨ chan_max < n) then Panic
  else Ok (length (mchans w),
           MkWorld (cs w) (heap w) (mchans w ++ [n]) (rchans w) (trace w) (iter w)).

(** [&Client{...}]. *)
Definition new_client (c : Client) (w : World) : nat * World :=
  (length (heap w),
   MkWorld (cs w) (heap w ++ [c]) (mchans w) (rchans w) (trace w) (iter w)).

(** [make(chan *eventResponse)]. *)
Definition add_rchan (w : World) : World := set_rchans (rchans w ++ [None]) w.

Definition make_rchan (w : World) : nat * World := (length (rchans w), add_rchan w).

(** [cs.events <- ev].  With the channel full the sender waits until the
    listener has finished the request it is serving and taken the next. *)
Definition submit (ev : event) (w : World) : result World :=
  if decide (Z.of_nat (length (queue w)) ≤ chan_cap (events (cs w)))
  then Ok (set_queue (queue w ++ [ev]) w)
  else w' ← serve w; Ok (set_queue (queue w' ++ [ev]) w').

(** [<-rch]: the caller blocks while the listener serves the waiting
    requests, until one of them replies on [rch].  No request left and no
    reply: it blocks for ever. *)
Fixpoint await (fuel : nat) (rch : nat) (w : World) : result (option eventResponse * World) :=
  match rchans w !! rch with
  | Some (Some r) => Ok (r, w)
  | _ =>
      match fuel, queue w with
      | S fuel', _ :: _ => w' ← serve w; await fuel' rch w'
      | _, _ => Deadlock
      end
  end.

Definition recv (rch : nat) (w : World) : result (option eventResponse * World) :=
  await (length (queue w)) rch w.

(** [response.Clients], [cli.Client]: a field of a [*eventResponse]. *)
Definition field {A : Type} (f : eventResponse → A) (r : option eventResponse) : result A :=
  match r with
  | Some r => Ok (f r)
  | None => Panic
  end.

(** [func (cs *Clients) New].  Nothing orders the read of [len(cs.clients)]
    with the listener, which runs beside the caller: [sched] is the number of
    waiting requests the listener gets to serve between the send and the
    read, and every [sched] is a schedule the program may take. *)
Definition Clients_New (sched : nat) (ctx : context_Context) (rw : http_ResponseWriter)
    (clientID : string) (w : World) : result ((nat * Z) * World) :=
  '(mchan, w) ← make_mchan (MsgBuffer (cs w)) w;
  let '(cli, w) := new_client (MkClient clientID mchan rw ctx) w in
  w ← submit (MkEvent eTypeNewClient "" (Some cli) None) w;
  w ← serves sched w;
  Ok ((cli, len (live w)), w).

(** [func (cs *Clients) Range].  The visitor [f] acts on a state [V] of the
    caller. *)
Definition Clients_Range {V : Type} (f : option nat → V → V) (v : V) (w : World)
    : result (V * World) :=
  let '(rch, w) := make_rchan w in
  w ← submit (MkEvent eTypeClientList "" None (Some rch)) w;
  '(response, w) ← recv rch w;
  cls ← field resp_Clients response;
  Ok (foldl (λ acc i, match cls !! i with Some c => f c acc | None => acc end)
            v (seq 0 (length cls)), w).

(** [func (cs *Clients) Remove]. *)
Definition Clients_Remove (clientID : string) (w : World) : result (Z * World) :=
  let '(rch, w) := make_rchan w in
  w ← submit (MkEvent eTypeRemoveClient clientID None (Some rch)) w;
  '(_, w) ← recv rch w;
  Ok (len (live w), w).

(** [func (cs *Clients) Active]. *)
Definition Clients_Active (w : World) : Z := len (live w).

(** [func (cs *Clients) Clients]. *)
Definition Clients_Clients (w : World) : result (list (option nat) * World) :=
  let '(rch, w) := make_rchan w in
  w ← submit (MkEvent eTypeClientList "" None (Some rch)) w;
  '(response, w) ← recv rch w;
  cls ← field resp_Clients response;
  Ok (cls, w).

(** [func (cs *Clients) Client]: the request it sends is of type
    [eTypeClientList] and carries no id. *)
Definition Clients_Client (clientID : string) (w : World) : result (option nat * World) :=
  let '(rch, w) := make_rchan w in
  w ← submit (MkEvent eTypeClientList "" None (Some rch)) w;
  '(cli, w) ← recv rch w;
  c ← field resp_Client cli;
  Ok (c, w).

End registry.

(** [func NewClientManager]: a program that has just made its registry.  The
    listener goroutine it starts is the one that [serve] runs. *)
Definition buffer : Z := 10.

Definition NewClientManager : World :=
  MkWorld (MkClients ∅ buffer (MkChan buffer [])) [] [] [] [] 0.

(** ** Well-formed states

    What holds of every state the public methods lead to. *)

(** The channel a request is answered on, when the listener answers it. *)
Definition reply_chan (ev : event) : option nat :=
  match ev_Type ev with
  | eTypeClientList | eTypeRemoveClient | eTypeClient => ev_Response ev
  | eTypeNewClient | eTypeActiveClientCount => None
  end.

(** A waiting request was built by one of the methods: an insert carries an
    allocated record, a request that is answered carries a response channel
    whose maker still waits. *)
Definition wf_event (w : World) (ev : event) : Prop :=
  match ev_Type ev with
  | eTypeNewClient => is_Some (ev_Client ev ≫= (heap w !!.))
  | eTypeActiveClientCount => True
  | eTypeClientList | eTypeRemoveClient | eTypeClient =>
      ev_Response ev ≫= (rchans w !!.) = Some None
  end.

#[global] Instance wf_event_dec w ev : Decision (wf_event w ev).
Proof. unfold wf_event. destruct (ev_Type ev); apply _. Defined.

(** Every response channel is made for one request. *)
Definition wf_queue (w : World) (evs : list event) : Prop :=
  Forall (wf_event w) evs ∧ NoDup (omap reply_chan evs).

(** Every entry of the map is a record filed under its own id. *)
Definition wf_live (w : World) : Prop :=
  map_Forall (λ k p, ID <$> heap w !! p = Some k) (live w).

Definition wf_world `{MakeChan} (w : World) : Prop :=
  wf_live w ∧ wf_queue w (queue w) ∧ 0 ≤ MsgBuffer (cs w) ≤ chan_max.

#[global] Instance wf_world_dec `{MakeChan} w : Decision (wf_world w).
Proof. unfold wf_world, wf_live, wf_queue. apply _. Defined.

(** ** The registry as the specification words it

    Add and remove requests, applied one at a time, oldest first, to the
    empty map. *)
Inductive request :=
  | ReqAdd (id : string) (cli : nat)
  | ReqRemove (id : string).

Definition apply_request (m : gmap string nat) (r : request) : gmap string nat :=
  match r with
  | ReqAdd id cli => <[id := cli]> m
  | ReqRemove id => delete id m
  end.

Definition apply_requests (m : gmap string nat) (rs : list request) : gmap string nat :=
  foldl apply_request m rs.

(** The ids added minus the ids removed, in the order of arrival. *)
Definition apply_id (s : gset string) (r : request) : gset string :=
  match r with
  | ReqAdd id _ => {[id]} ∪ s
  | ReqRemove id => s ∖ {[id]}
  end.

Definition live_ids (rs : list request) : gset string := foldl apply_id ∅ rs.

(** The add or remove request an event stands for, if any. *)
Definition request_of (h : list Client) (ev : event) : option request :=
  match ev_Type ev with
  | eTypeNewClient => p ← ev_Client ev; c ← h !! p; Some (ReqAdd (ID c) p)
  | eTypeRemoveClient => Some (ReqRemove (ev_ClientID ev))
  | _ => None
  end.

Definition requests_of (h : list Client) (evs : list event) : list request :=
  omap (request_of h) evs.

(** [Range] as the specification words it: visit the records of a snapshot
    once each, in sequence. *)
Definition visit_all {V : Type} (f : option nat → V → V) (v : V)
    (snapshot : list (option nat)) : V :=
  foldl (λ acc c, f c acc) v snapshot.

(** ** Programs of calls *)

(** A call of one of the public methods ([Range] with a visitor that does
    nothing). *)
Inductive call :=
  | CallNew (sched : nat) (ctx : context_Context) (rw : http_ResponseWriter) (clientID : string)
  | CallRange
  | CallRemove (clientID : string)
  | CallActive
  | CallClients
  | CallClient (clientID : string).

Definition run_call `{MapIteration} `{MakeChan} (c : call) (w : World) : result World :=
  match c with
  | CallNew sched ctx rw clientID => snd <$> Clients_New sched ctx rw clientID w
  | CallRange => snd <$> Clients_Range (λ _ (u : unit), u) () w
  | CallRemove clientID => snd <$> Clients_Remove clientID w
  | CallActive => Ok w
  | CallClients => snd <$> Clients_Clients w
  | CallClient clientID => snd <$> Clients_Client clientID w
  end.

Fixpoint run_calls `{MapIteration} `{MakeChan} (cs : list call) (w : World) : result World :=
  match cs with
  | [] => Ok w
  | c :: cs' => w' ← run_call c w; run_calls cs' w'
  end.

(** ** Example states *)

(** Clients "a" and "b" are registered; the insert of a third record, "c",
    waits in the queue. *)
Definition busy : World :=
  MkWorld
    (MkClients {["a" := 0%nat; "b" := 1%nat]} 10
       (MkChan 10 [MkEvent eTypeNewClient "" (Some 2%nat) None]))
    [MkClient "a" 0 (MkResponseWriter 1) (MkContext 1);
     MkClient "b" 1 (MkResponseWriter 2) (MkContext 2);
     MkClient "c" 2 (MkResponseWriter 3) (MkContext 3)]
    [10; 10; 10] [] [] 0.

(** [busy] once the listener has served the waiting insert. *)
Definition busy_served : World :=
  MkWorld
    (MkClients {["a" := 0%nat; "b" := 1%nat; "c" := 2%nat]} 10 (MkChan 10 []))
    [MkClient "a" 0 (MkResponseWriter 1) (MkContext 1);
     MkClient "b" 1 (MkResponseWriter 2) (MkContext 2);
     MkClient "c" 2 (MkResponseWriter 3) (MkContext 3)]
    [10; 10; 10] [] [] 0.

(** Two records "a" and "b" are allocated and two callers wait for a reply;
    nothing is registered yet. *)
Definition two_records : World :=
  MkWorld (MkClients ∅ 10 (MkChan 10 []))
    [MkClient "a" 0 (MkResponseWriter 1) (MkContext 1);
     MkClient "b" 1 (MkResponseWriter 2) (MkContext 2)]
    [10; 10] [None; None] [] 0.

(** Insert "a", insert "b", list, remove "a". *)
Definition script : list event :=
  [MkEvent eTypeNewClient "" (Some 0%nat) None;
   MkEvent eTypeNewClient "" (Some 1%nat) None;
   MkEvent eTypeClientList "" None (Some 0%nat);
   MkEvent eTypeRemoveClient "a" None (Some 1%nat)].

(** "a" is registered with record 0; record 1 is a second record with the
    same id. *)
Definition same_id : World :=
  MkWorld (MkClients {["a" := 0%nat]} 10 (MkChan 10 []))
    [MkClient "a" 0 (MkResponseWriter 1) (MkContext 1);
     MkClient "a" 1 (MkResponseWriter 2) (MkContext 2)]
    [10; 10] [] [] 0.

(** ** What the waiting requests lead to, and what a trace holds *)

(** The map once the listener has served all that waits: the requests of the
    queue applied, oldest first, to the map as it is. *)
Definition settled (w : World) : gmap string nat :=
  apply_requests (live w) (requests_of (heap w) (queue w)).

(** The channels replied on, and the contexts [Done()] was called on, in the
    order of a trace. *)
Definition replies (t : list action) : list nat :=
  omap (λ a, match a with Reply ch _ => Some ch | CtxDone _ => None end) t.

Definition dones (t : list action) : list context_Context :=
  omap (λ a, match a with CtxDone ctx => Some ctx | Reply _ _ => None end) t.

(** The ids a program of calls registers: [New] adds its id, [Remove] takes
    its id away, the other methods change nothing. *)
Definition call_ids (s : gset string) (c : call) : gset string :=
  match c with
  | CallNew _ _ _ clientID => {[clientID]} ∪ s
  | CallRemove clientID => s ∖ {[clientID]}
  | CallRange | CallActive | CallClients | CallClient _ => s
  end.

(** An insert request. *)
Definition is_insert (ev : event) : Prop := ev_Type ev = eTypeNewClient.

(** A program of calls: register "d", remove "a", list, register "a"
    again. *)
Definition program : list call :=
  [CallNew 0 (MkContext 4) (MkResponseWriter 4) "d";
   CallRemove "a";
   CallClients;
   CallNew 1 (MkContext 5) (MkResponseWriter 5) "a"].

(** A registry whose [MsgBuffer] was set to -1. *)
Definition negative_buffer : World :=
  MkWorld (MkClients ∅ (-1) (MkChan 10 [])) [] [] [] [] 0.

(** [same_id] with a caller waiting for a reply. *)
Definition same_id_waiting : World :=
  MkWorld (MkClients {["a" := 0%nat]} 10 (MkChan 10 []))
    [MkClient "a" 0 (MkResponseWriter 1) (MkContext 1);
     MkClient "a" 1 (MkResponseWriter 2) (MkContext 2)]
    [10; 10] [None] [] 0.

(** A registry whose [MsgBuffer] was set to 2^60. *)
Definition huge_buffer : World :=
  MkWorld (MkClients ∅ (2 ^ 60) (MkChan 10 [])) [] [] [] [] 0.

(** * Properties *)

Section properties.
Context {MI : MapIteration} {MC : MakeChan}.

Implicit Types (w : World) (ev : event) (evs q : list event).

Lemma wf_world_intro w :
  wf_live w → wf_queue w (queue w) → 0 ≤ MsgBuffer (cs w) ≤ chan_max → wf_world w.
Proof. intros Hl Hq Hb. split; [done|]. by split. Qed.

(** ** Outcomes *)

Lemma bind_Ok {A B} (r : result A) (k : A → result B) b :
  r ≫= k = Ok b ↔ ∃ a, r = Ok a ∧ k a = Ok b.
Proof.
  destruct r; simpl; split; try (by intros [? [? ?]]); try done.
  - eauto.
  - by intros [? [[= ->] ?]].
Qed.

Lemma fmap_Ok {A B} (f : A → B) (r : result A) b :
  f <$> r = Ok b ↔ ∃ a, r = Ok a ∧ b = f a.
Proof.
  destruct r; simpl; split; try (by intros [? [? ?]]); try done.
  - intros [= <-]. eauto.
  - by intros [? [[= ->] ->]].
Qed.

(** ** Stores and queues *)

(** The slot a store gets when it grows by one. *)
Lemma lookup_snoc_new {A} (l : list A) (x : A) : (l ++ [x]) !! length l = Some x.
Proof. by rewrite lookup_app_r, Nat.sub_diag. Qed.

Lemma not_elem_of_omap_cons {A B} (f : A → option B) (a : A) (l : list A) (y : B) :
  y ∉ omap f (a :: l) → f a ≠ Some y ∧ y ∉ omap f l.
Proof.
  simpl. intros Hni. split.
  - intros Heq. rewrite Heq in Hni. apply Hni, list_elem_of_here.
  - intros Hin. apply Hni. destruct (f a); [by apply list_elem_of_further|done].
Qed.

(** The channel a caller has just made waits for its reply. *)
Lemma add_rchan_fresh w n :
  length (rchans w) = n → rchans (add_rchan w) !! n = Some None.
Proof. intros <-. apply lookup_snoc_new. Qed.

#[local] Hint Resolve lookup_snoc_new add_rchan_fresh : core.

(** ** The state setters *)

Lemma set_queue_id w : set_queue (queue w) w = w.
Proof. by destruct w as [[? ? []] ? ? ? ? ?]. Qed.

Lemma set_queue_nil w : queue w = [] → set_queue [] w = w.
Proof. intros <-. apply set_queue_id. Qed.

(** ** One step of the listener *)

Lemma send_Ok rch r w w' :
  send rch r w = Ok w' ↔
  ∃ ch, rch = Some ch ∧ rchans w !! ch = Some None ∧
        w' = log (Reply ch r) (set_rchans (<[ch := Some r]> (rchans w)) w).
Proof.
  unfold send. split.
  - destruct rch as [ch|]; [|done].
    destruct (rchans w !! ch) as [[?|]|] eqn:E; try done.
    intros [= <-]. eauto.
  - intros (ch & -> & -> & ->). done.
Qed.

Lemma send_set_queue q rch r w :
  send rch r (set_queue q w) = set_queue q <$> send rch r w.
Proof.
  unfold send. destruct rch as [ch|]; [|done]. simpl.
  by destruct (rchans w !! ch) as [[?|]|].
Qed.

Lemma listener_step_set_queue q ev w :
  listener_step ev (set_queue q w) = set_queue q <$> listener_step ev w.
Proof.
  unfold listener_step, deref, live. destruct (ev_Type ev); simpl.
  - destruct (ev_Client ev) as [p|]; [|done]. by destruct (heap w !! p).
  - exact (send_set_queue q _ _ (next_iter w)).
  - destruct (clients (cs w) !! ev_ClientID ev) as [p|].
    + destruct (heap w !! p); [|done]. simpl.
      exact (send_set_queue q _ _
        (set_clients (delete (ev_ClientID ev) (clients (cs w))) (log (CtxDone (Ctx c)) w))).
    + apply send_set_queue.
  - done.
  - apply send_set_queue.
Qed.

Lemma send_add_rchan rch r w w' :
  send rch r w = Ok w' → send rch r (add_rchan w) = Ok (add_rchan w').
Proof.
  intros (ch & -> & Hch & ->)%send_Ok. unfold send, add_rchan. simpl.
  rewrite (lookup_app_l_Some _ _ _ _ Hch).
  rewrite insert_app_l by (by eapply lookup_lt_Some). done.
Qed.

Lemma listener_step_add_rchan ev w w' :
  listener_step ev w = Ok w' → listener_step ev (add_rchan w) = Ok (add_rchan w').
Proof.
  unfold listener_step, deref, live. destruct (ev_Type ev); simpl.
  - destruct (ev_Client ev) as [p|]; [|done].
    destruct (heap w !! p); [|done]. simpl. by intros [= <-].
  - exact (send_add_rchan _ _ (next_iter w) _).
  - destruct (clients (cs w) !! ev_ClientID ev) as [p|].
    + destruct (heap w !! p); [|done]. simpl.
      exact (send_add_rchan _ _
        (set_clients (delete (ev_ClientID ev) (clients (cs w))) (log (CtxDone (Ctx c)) w)) _).
    + apply send_add_rchan.
  - by intros [= <-].
  - apply send_add_rchan.
Qed.

(** The listener's step under each [case] of the [switch]. *)

Lemma step_new ev w p c :
  ev_Type ev = eTypeNewClient → ev_Client ev = Some p → heap w !! p = Some c →
  listener_step ev w = Ok (set_clients (<[ID c := p]> (live w)) w).
Proof. unfold listener_step, deref. by intros -> -> ->. Qed.

Lemma step_list ev w ch :
  ev_Type ev = eTypeClientList → ev_Response ev = Some ch →
  rchans w !! ch = Some None →
  let r := Some (MkResponse (copied (iter w) (live w)) 0 None) in
  listener_step ev w =
    Ok (log (Reply ch r) (set_rchans (<[ch := Some r]> (rchans w)) (next_iter w))).
Proof. unfold listener_step, send. simpl. by intros -> -> ->. Qed.

Lemma step_remove_absent ev w ch :
  ev_Type ev = eTypeRemoveClient → ev_Response ev = Some ch →
  rchans w !! ch = Some None → live w !! ev_ClientID ev = None →
  listener_step ev w =
    Ok (log (Reply ch None) (set_rchans (<[ch := Some None]> (rchans w)) w)).
Proof. unfold listener_step, send. by intros -> -> -> ->. Qed.

Lemma step_remove_present ev w ch p c :
  ev_Type ev = eTypeRemoveClient → ev_Response ev = Some ch →
  rchans w !! ch = Some None → live w !! ev_ClientID ev = Some p →
  heap w !! p = Some c →
  listener_step ev w =
    Ok (log (Reply ch None)
         (set_rchans (<[ch := Some None]> (rchans w))
           (set_clients (delete (ev_ClientID ev) (live w))
             (log (CtxDone (Ctx c)) w)))).
Proof. unfold listener_step, send, deref. simpl. by intros -> -> -> -> ->. Qed.

Lemma step_client ev w ch :
  ev_Type ev = eTypeClient → ev_Response ev = Some ch →
  rchans w !! ch = Some None →
  let r := Some (MkResponse [] 0 (live w !! ev_ClientID ev)) in
  listener_step ev w =
    Ok (log (Reply ch r) (set_rchans (<[ch := Some r]> (rchans w)) w)).
Proof. unfold listener_step, send. simpl. by intros -> -> ->. Qed.

(** A well-formed request is served: the listener neither panics nor
    blocks. *)
Lemma listener_step_total ev w :
  wf_live w → wf_event w ev → ∃ w', listener_step ev w = Ok w'.
Proof.
  intros Hl. unfold wf_event.
  destruct (ev_Type ev) eqn:Et.
  - destruct (ev_Client ev) as [p|] eqn:Ec; simpl; [|by intros [? ?]].
    intros [c Hc]. erewrite step_new; eauto.
  - destruct (ev_Response ev) as [ch|] eqn:Er; simpl; [|done].
    intros Hch. erewrite step_list; eauto.
  - destruct (ev_Response ev) as [ch|] eqn:Er; simpl; [|done].
    intros Hch. destruct (live w !! ev_ClientID ev) as [p|] eqn:El.
    + pose proof (Hl _ _ El) as Hp. simpl in Hp.
      destruct (heap w !! p) as [c|] eqn:Hc; [|done].
      erewrite step_remove_present; eauto.
    + erewrite step_remove_absent; eauto.
  - intros _. unfold listener_step. rewrite Et. eauto.
  - destruct (ev_Response ev) as [ch|] eqn:Er; simpl; [|done].
    intros Hch. erewrite step_client; eauto.
Qed.

(** What a step leaves alone, and what it does to the map: it applies the
    request the event stands for. *)
Lemma listener_step_frame ev w w' :
  listener_step ev w = Ok w' →
  heap w' = heap w ∧ mchans w' = mchans w ∧ queue w' = queue w ∧
  MsgBuffer (cs w') = MsgBuffer (cs w) ∧
  chan_cap (events (cs w')) = chan_cap (events (cs w)) ∧
  length (rchans w') = length (rchans w) ∧
  (∀ ch, reply_chan ev ≠ Some ch → rchans w' !! ch = rchans w !! ch) ∧
  live w' = apply_requests (live w) (option_list (request_of (heap w) ev)).
Proof.
  unfold listener_step, deref, reply_chan, request_of, apply_requests.
  destruct (ev_Type ev).
  - destruct (ev_Client ev) as [p|]; [|done]. simpl.
    destruct (heap w !! p) as [c|]; [|done]. simpl.
    intros [= <-]. by repeat split.
  - intros (ch & -> & Hch & ->)%send_Ok. simpl. rewrite length_insert.
    repeat split; try done.
    intros ch' Hne. apply list_lookup_insert_ne. congruence.
  - destruct (live w !! ev_ClientID ev) as [p|] eqn:El.
    + destruct (heap w !! p) as [c|]; [|done]. simpl.
      intros (ch & -> & Hch & ->)%send_Ok. simpl. rewrite length_insert.
      repeat split; try done.
      intros ch' Hne. apply list_lookup_insert_ne. congruence.
    + intros (ch & -> & Hch & ->)%send_Ok. simpl. rewrite length_insert.
      repeat split; try done.
      * intros ch' Hne. apply list_lookup_insert_ne. congruence.
      * unfold live in *. by rewrite delete_id.
  - intros [= <-]. by repeat split.
  - intros (ch & -> & Hch & ->)%send_Ok. simpl. rewrite length_insert.
    repeat split; try done.
    intros ch' Hne. apply list_lookup_insert_ne. congruence.
Qed.

Lemma apply_request_wf_live h m r ev :
  map_Forall (λ k p, ID <$> h !! p = Some k) m →
  request_of h ev = Some r →
  map_Forall (λ k p, ID <$> h !! p = Some k) (apply_request m r).
Proof.
  intros Hm. unfold request_of.
  destruct (ev_Type ev); try done.
  - destruct (ev_Client ev) as [p|]; [|done]. simpl.
    destruct (h !! p) as [c|] eqn:Hc; [|done]. simpl. intros [= <-]. simpl.
    apply map_Forall_insert_2; [|done]. by rewrite Hc.
  - intros [= <-]. simpl. by apply map_Forall_delete.
Qed.

Lemma listener_step_wf_live ev w w' :
  listener_step ev w = Ok w' → wf_live w → wf_live w'.
Proof.
  intros Hs Hl. unfold wf_live.
  destruct (listener_step_frame _ _ _ Hs) as (-> & _ & _ & _ & _ & _ & _ & ->).
  destruct (request_of (heap w) ev) as [r|] eqn:Hr; simpl; [|done].
  by eapply apply_request_wf_live.
Qed.

(** ** The listener on a sequence of requests *)

Lemma listener_app evs1 evs2 w :
  listener (evs1 ++ evs2) w = listener evs1 w ≫= listener evs2.
Proof.
  revert w. induction evs1 as [|ev evs1 IH]; intros w; simpl; [done|].
  destruct (listener_step ev w); simpl; [apply IH|done..].
Qed.

Lemma listener_set_queue q evs w :
  listener evs (set_queue q w) = set_queue q <$> listener evs w.
Proof.
  revert w. induction evs as [|ev evs IH]; intros w; simpl; [done|].
  rewrite listener_step_set_queue.
  destruct (listener_step ev w); simpl; [apply IH|done..].
Qed.

Lemma listener_add_rchan evs w w' :
  listener evs w = Ok w' → listener evs (add_rchan w) = Ok (add_rchan w').
Proof.
  revert w. induction evs as [|ev evs IH]; intros w; simpl.
  - by intros [= <-].
  - intros (w1 & Hs & Hl)%bind_Ok.
    rewrite (listener_step_add_rchan _ _ _ Hs). simpl. by apply IH.
Qed.

Lemma wf_event_step ev ev' w w' :
  listener_step ev w = Ok w' → wf_event w ev' →
  (∀ ch, reply_chan ev' = Some ch → reply_chan ev ≠ Some ch) →
  wf_event w' ev'.
Proof.
  intros Hs Hwf Hne.
  destruct (listener_step_frame _ _ _ Hs) as (Hh & _ & _ & _ & _ & _ & Hr & _).
  unfold wf_event, reply_chan in *.
  destruct (ev_Type ev'); rewrite ?Hh; try done;
    (destruct (ev_Response ev') as [ch'|]; simpl in *; [|done];
     rewrite Hr; [done|by apply Hne]).
Qed.

Lemma wf_queue_step ev evs w w' :
  listener_step ev w = Ok w' → wf_queue w (ev :: evs) → wf_queue w' evs.
Proof.
  intros Hs [Hall Hnd]. apply Forall_cons in Hall as [_ Hall]. split.
  - apply Forall_forall. intros ev' Hin.
    eapply wf_event_step; [done|by eapply Forall_forall in Hall|].
    intros ch Hch Hev. simpl in Hnd. rewrite Hev in Hnd.
    apply NoDup_cons in Hnd as [Hni _]. apply Hni.
    apply list_elem_of_omap. eauto.
  - simpl in Hnd. destruct (reply_chan ev); [|done].
    by apply NoDup_cons in Hnd as [_ ?].
Qed.

(** Well-formed requests are all served. *)
Lemma listener_total evs w :
  wf_live w → wf_queue w evs → ∃ w', listener evs w = Ok w' ∧ wf_live w'.
Proof.
  revert w. induction evs as [|ev evs IH]; intros w Hl Hq; simpl; [eauto|].
  destruct (listener_step_total ev w Hl) as [w1 Hs].
  { destruct Hq as [Hall _]. by apply Forall_cons in Hall as [? _]. }
  rewrite Hs. simpl. apply IH.
  - by eapply listener_step_wf_live.
  - by eapply wf_queue_step.
Qed.

Lemma requests_of_cons h ev evs :
  requests_of h (ev :: evs) = option_list (request_of h ev) ++ requests_of h evs.
Proof. unfold requests_of. simpl. by destruct (request_of h ev). Qed.

Lemma requests_of_app h evs1 evs2 :
  requests_of h (evs1 ++ evs2) = requests_of h evs1 ++ requests_of h evs2.
Proof. apply omap_app. Qed.

(** The map after the listener has served [evs] is the map with the add and
    remove requests of [evs] applied in order. *)
Lemma listener_frame evs w w' :
  listener evs w = Ok w' →
  heap w' = heap w ∧ mchans w' = mchans w ∧ queue w' = queue w ∧
  MsgBuffer (cs w') = MsgBuffer (cs w) ∧
  chan_cap (events (cs w')) = chan_cap (events (cs w)) ∧
  length (rchans w') = length (rchans w) ∧
  (∀ ch, ch ∉ omap reply_chan evs → rchans w' !! ch = rchans w !! ch) ∧
  live w' = apply_requests (live w) (requests_of (heap w) evs).
Proof.
  revert w. induction evs as [|ev evs IH]; intros w; cbn [listener].
  - intros [= <-]. by repeat split.
  - intros (w1 & Hs & Hl)%bind_Ok.
    destruct (listener_step_frame _ _ _ Hs)
      as (Hh & Hm & Hq & Hb & Hc & Hn & Hr & Hlive).
    destruct (IH _ Hl) as (Hh' & Hm' & Hq' & Hb' & Hc' & Hn' & Hr' & Hlive').
    repeat split; try congruence.
    + intros ch [Hne Hni]%not_elem_of_omap_cons. by rewrite Hr', Hr.
    + rewrite Hlive', Hlive, Hh, requests_of_cons.
      unfold apply_requests. by rewrite foldl_app.
Qed.

(** ** The listener goroutine beside a caller *)

Lemma serves_listener n w :
  serves n w =
  set_queue (drop n (queue w)) <$> listener (take n (queue w)) (set_queue [] w).
Proof.
  revert w. induction n as [|n IH]; intros w; simpl.
  - change (Ok w = Ok (set_queue (queue w) w)). by rewrite set_queue_id.
  - unfold serve. destruct (queue w) as [|ev q] eqn:Eq; simpl.
    + rewrite IH, Eq, take_nil, drop_nil. done.
    + rewrite !listener_step_set_queue.
      destruct (listener_step ev w) as [w1| |]; simpl; [|done..].
      rewrite IH. done.
Qed.

Lemma drain_listener w : drain w = listener (queue w) (set_queue [] w).
Proof.
  unfold drain. rewrite serves_listener, take_ge, drop_ge by done.
  by rewrite <-listener_set_queue.
Qed.

(** ** A caller that waits for its reply *)

Lemma wf_event_reply_chan w ev ch :
  wf_event w ev → reply_chan ev = Some ch → rchans w !! ch = Some None.
Proof.
  unfold wf_event, reply_chan.
  destruct (ev_Type ev); try done; intros H Heq; by rewrite Heq in H.
Qed.

Lemma wf_queue_fresh w evs :
  wf_queue w evs → length (rchans w) ∉ omap reply_chan evs.
Proof.
  intros [Hall _] (ev & Hin & Hch)%list_elem_of_omap.
  eapply Forall_forall in Hall; [|done].
  apply (wf_event_reply_chan _ _ _ Hall) in Hch.
  apply lookup_lt_Some in Hch. lia.
Qed.

(** The caller of [<-rch] gets the reply to its own request [ev], the last
    in the queue, once the listener has served all that was waiting. *)
Lemma await_spec q w ev rch w0 w' r fuel :
  queue w = q ++ [ev] →
  rchans w !! rch = Some None →
  rch ∉ omap reply_chan q →
  listener q (set_queue [] w) = Ok w0 →
  listener_step ev w0 = Ok w' →
  rchans w' !! rch = Some (Some r) →
  (length q < fuel)%nat →
  await fuel rch w = Ok (r, w').
Proof.
  revert w fuel. induction q as [|e q IH]; intros w fuel Hq Hrch Hni Hl Hs Hr Hfuel;
    (destruct fuel as [|fuel]; [simpl in Hfuel; lia|]);
    cbn [await]; rewrite Hrch; unfold serve; rewrite Hq; cbn [app].
  - simpl in Hl. injection Hl as <-. rewrite Hs. simpl.
    destruct fuel; cbn [await]; by rewrite Hr.
  - cbn [listener] in Hl. apply bind_Ok in Hl as (w1 & Hs1 & Hl).
    rewrite listener_step_set_queue in Hs1 |- *.
    apply fmap_Ok in Hs1 as (w1' & Hs1 & ->). rewrite Hs1. simpl.
    destruct (listener_step_frame _ _ _ Hs1) as (_ & _ & _ & _ & _ & _ & Hfr & _).
    apply not_elem_of_omap_cons in Hni as [Hne Hni].
    apply (IH (set_queue (q ++ [ev]) w1')); try done.
    + simpl. by rewrite Hfr.
    + simpl in Hfuel. lia.
Qed.

(** A method that sends [ev] with a response channel it has just made, then
    receives on it: the listener serves what was waiting (leading to [wd]),
    then [ev], and the caller has its reply. *)
Lemma call_served ev w wd w' r :
  wf_queue w (queue w) →
  drain w = Ok wd →
  reply_chan ev = Some (length (rchans w)) →
  listener_step ev (add_rchan wd) = Ok w' →
  rchans w' !! length (rchans w) = Some (Some r) →
  ∃ w2, submit ev (add_rchan w) = Ok w2 ∧ recv (length (rchans w)) w2 = Ok (r, w').
Proof.
  intros Hq Hd Hch Hs Hr. set (rch := length (rchans w)) in *.
  rewrite drain_listener in Hd. apply listener_add_rchan in Hd.
  change (add_rchan (set_queue [] w)) with (set_queue [] (add_rchan w)) in Hd.
  assert (rchans (add_rchan w) !! rch = Some None) as Hfresh by auto.
  pose proof (wf_queue_fresh _ _ Hq) as Hni. fold rch in Hni.
  change (queue w) with (queue (add_rchan w)) in Hd, Hni.
  unfold submit, recv. case_decide as Hfull.
  - eexists. split; [done|]. cbn [queue set_queue cs events chan_queue].
    eapply await_spec; try done. rewrite length_app. simpl. lia.
  - unfold serve. destruct (queue (add_rchan w)) as [|e q] eqn:Eq.
    + simpl. eexists. split; [done|]. cbn [queue set_queue cs events chan_queue].
      rewrite Eq. eapply (await_spec []); try done. simpl. lia.
    + cbn [listener] in Hd. apply bind_Ok in Hd as (w1 & Hs1 & Hd).
      rewrite listener_step_set_queue in Hs1 |- *.
      apply fmap_Ok in Hs1 as (w1' & Hs1 & ->). rewrite Hs1. simpl.
      destruct (listener_step_frame _ _ _ Hs1) as (_ & _ & _ & _ & _ & _ & Hfr & _).
      eexists. split; [done|]. cbn [queue set_queue cs events chan_queue].
      apply not_elem_of_omap_cons in Hni as [Hne Hni].
      eapply (await_spec q); try done.
      * simpl. by rewrite Hfr.
      * rewrite length_app. simpl. lia.
Qed.

Lemma wf_queue_nil w : wf_queue w [].
Proof. split; [apply Forall_nil_2|apply NoDup_nil_2]. Qed.

(** The listener serves all that waits in a well-formed state. *)
Lemma drain_total w :
  wf_world w →
  ∃ wd, drain w = Ok wd ∧ wf_world wd ∧ queue wd = [] ∧
        heap wd = heap w ∧ mchans wd = mchans w ∧
        MsgBuffer (cs wd) = MsgBuffer (cs w) ∧
        chan_cap (events (cs wd)) = chan_cap (events (cs w)) ∧
        length (rchans wd) = length (rchans w) ∧
        live wd = apply_requests (live w) (requests_of (heap w) (queue w)).
Proof.
  intros (Hl & Hq & Hb0). rewrite drain_listener.
  destruct (listener_total (queue w) (set_queue [] w)) as (wd & Hd & Hl'); [done..|].
  exists wd. split; [done|].
  destruct (listener_frame _ _ _ Hd) as (? & ? & Hq' & Hb & ? & ? & _ & ?).
  simpl in Hq'. split_and!; try done.
  apply wf_world_intro; [done| |by rewrite Hb]. rewrite Hq'. apply wf_queue_nil.
Qed.

Lemma drain_idle w : queue w = [] → drain w = Ok w.
Proof. unfold drain. by intros ->. Qed.

(** A request that is answered is answered on its own channel, last. *)
Lemma listener_step_reply ev w w' ch :
  listener_step ev w = Ok w' → reply_chan ev = Some ch →
  ∃ r, rchans w' !! ch = Some (Some r).
Proof.
  unfold listener_step, reply_chan, deref.
  destruct (ev_Type ev); try done.
  - intros (ch' & -> & Hch & ->)%send_Ok [= ->]. eexists. simpl.
    apply list_lookup_insert_eq. by eapply lookup_lt_Some.
  - destruct (live w !! ev_ClientID ev) as [p|].
    + destruct (heap w !! p); [|done]. simpl.
      intros (ch' & -> & Hch & ->)%send_Ok [= ->]. eexists. simpl.
      apply list_lookup_insert_eq. by eapply lookup_lt_Some.
    + intros (ch' & -> & Hch & ->)%send_Ok [= ->]. eexists. simpl.
      apply list_lookup_insert_eq. by eapply lookup_lt_Some.
  - intros (ch' & -> & Hch & ->)%send_Ok [= ->]. eexists. simpl.
    apply list_lookup_insert_eq. by eapply lookup_lt_Some.
Qed.

(** Every method that waits for its reply returns, in a state that is
    well-formed again and has nothing left waiting. *)
Lemma call_total ev w :
  wf_world w →
  reply_chan ev = Some (length (rchans w)) →
  ev_Response ev = Some (length (rchans w)) →
  ∃ wd w' r w2,
    drain w = Ok wd ∧ wf_world wd ∧ queue wd = [] ∧
    length (rchans wd) = length (rchans w) ∧
    listener_step ev (add_rchan wd) = Ok w' ∧
    submit ev (add_rchan w) = Ok w2 ∧
    recv (length (rchans w)) w2 = Ok (r, w') ∧
    rchans w' !! length (rchans w) = Some (Some r) ∧
    wf_world w' ∧ queue w' = [] ∧
    heap w' = heap w ∧ mchans w' = mchans w ∧
    MsgBuffer (cs w') = MsgBuffer (cs w) ∧
    chan_cap (events (cs w')) = chan_cap (events (cs w)).
Proof.
  intros Hwf Hch Hresp.
  destruct (drain_total w Hwf)
    as (wd & Hd & (Hl & Hq & Hb0) & Hqd & Hh & Hm & Hb & Hc & Hn & _).
  assert (wf_event (add_rchan wd) ev) as Hev.
  { unfold wf_event, reply_chan in *.
    destruct (ev_Type ev); try done; rewrite Hresp;
      exact (add_rchan_fresh wd _ Hn). }
  destruct (listener_step_total ev (add_rchan wd)) as [w' Hs]; [done..|].
  destruct (listener_step_reply _ _ _ _ Hs Hch) as [r Hr].
  destruct (call_served ev w wd w' r) as (w2 & Hsub & Hrecv); try done.
  { by destruct Hwf as (_ & ? & _). }
  destruct (listener_step_frame _ _ _ Hs) as (Hh' & Hm' & Hq' & Hb' & Hc' & _).
  change (queue (add_rchan wd)) with (queue wd) in Hq'.
  change (heap (add_rchan wd)) with (heap wd) in Hh'.
  change (mchans (add_rchan wd)) with (mchans wd) in Hm'.
  change (cs (add_rchan wd)) with (cs wd) in Hb', Hc'.
  exists wd, w', r, w2. split_and!; try congruence; try done.
  apply wf_world_intro; [by apply (listener_step_wf_live _ _ _ Hs)| |by rewrite Hb'].
  rewrite Hq', Hqd. apply wf_queue_nil.
Qed.

(** ** Well-formedness is kept *)

Lemma wf_event_mono w w' ev :
  (∀ p c, heap w !! p = Some c → heap w' !! p = Some c) →
  (∀ ch, rchans w !! ch = Some None → rchans w' !! ch = Some None) →
  wf_event w ev → wf_event w' ev.
Proof.
  intros Hh Hr. unfold wf_event.
  destruct (ev_Type ev); try done;
    try (destruct (ev_Response ev) as [ch|]; simpl; [apply Hr|done]).
  destruct (ev_Client ev) as [p|]; simpl; [|done].
  intros [c Hc]. rewrite (Hh _ _ Hc). eauto.
Qed.

Lemma wf_event_no_reply w w' ev :
  heap w' = heap w → reply_chan ev = None → wf_event w ev → wf_event w' ev.
Proof.
  intros Hh. unfold wf_event, reply_chan. rewrite Hh.
  destruct (ev_Type ev); try done; by intros ->.
Qed.

Lemma wf_queue_mono w w' evs :
  (∀ p c, heap w !! p = Some c → heap w' !! p = Some c) →
  (∀ ch, rchans w !! ch = Some None → rchans w' !! ch = Some None) →
  wf_queue w evs → wf_queue w' evs.
Proof.
  intros Hh Hr [Hall Hnd]. split; [|done].
  eapply Forall_impl; [done|]. intros ev. by apply wf_event_mono.
Qed.

Lemma wf_live_mono w w' :
  (∀ p c, heap w !! p = Some c → heap w' !! p = Some c) →
  live w' = live w → wf_live w → wf_live w'.
Proof.
  intros Hh Hl Hwf. unfold wf_live. rewrite Hl. intros k p Hk.
  specialize (Hwf k p Hk). simpl in *.
  destruct (heap w !! p) as [c|] eqn:Hc; [|done]. by rewrite (Hh _ _ Hc).
Qed.

Lemma wf_queue_app_l w evs1 evs2 : wf_queue w (evs1 ++ evs2) → wf_queue w evs1.
Proof.
  intros [Hall Hnd]. apply Forall_app in Hall as [Hall _].
  rewrite omap_app in Hnd. apply NoDup_app in Hnd as (Hnd & _). done.
Qed.

Lemma wf_queue_snoc w evs ev :
  wf_queue w evs → wf_event w ev → reply_chan ev = None → wf_queue w (evs ++ [ev]).
Proof.
  intros [Hall Hnd] Hev Hch. split.
  - apply Forall_app. split; [done|]. by apply Forall_singleton.
  - rewrite omap_app. simpl. rewrite Hch. by rewrite app_nil_r.
Qed.

Lemma listener_wf_queue evs1 evs2 w w' :
  listener evs1 w = Ok w' → wf_queue w (evs1 ++ evs2) → wf_queue w' evs2.
Proof.
  revert w. induction evs1 as [|ev evs1 IH]; intros w; cbn [listener app].
  - by intros [= <-].
  - intros (w1 & Hs & Hl)%bind_Ok Hq. eapply IH; [done|].
    by eapply wf_queue_step.
Qed.

(** However many requests the listener gets to serve, it serves them. *)
Lemma serves_total n w :
  wf_world w →
  ∃ w', serves n w = Ok w' ∧ wf_world w' ∧
        queue w' = drop n (queue w) ∧
        heap w' = heap w ∧ mchans w' = mchans w ∧
        MsgBuffer (cs w') = MsgBuffer (cs w) ∧
        chan_cap (events (cs w')) = chan_cap (events (cs w)) ∧
        length (rchans w') = length (rchans w) ∧
        live w' = apply_requests (live w) (requests_of (heap w) (take n (queue w))).
Proof.
  intros (Hl & Hq & Hb0). rewrite serves_listener.
  rewrite <-(take_drop n (queue w)) in Hq.
  destruct (listener_total (take n (queue w)) (set_queue [] w)) as (wl & Hd & Hl').
  { done. } { by eapply wf_queue_app_l. }
  rewrite Hd. simpl. eexists. split; [done|].
  destruct (listener_frame _ _ _ Hd) as (? & ? & _ & Hb & ? & ? & _ & ?).
  split_and!; try done.
  apply wf_world_intro; [done| |simpl; by rewrite Hb].
  by apply (listener_wf_queue _ _ _ _ Hd).
Qed.

Lemma serve_serves w : serve w = serves 1 w.
Proof. simpl. by destruct (serve w). Qed.

(** Sending a request that expects no reply. *)
Lemma submit_total ev w :
  wf_world w → wf_event w ev → reply_chan ev = None →
  ∃ w2 q, submit ev w = Ok w2 ∧ wf_world w2 ∧
        queue w2 = q ++ [ev] ∧
        (queue w = [] → q = [] ∧ live w2 = live w) ∧
        heap w2 = heap w ∧ mchans w2 = mchans w ∧
        MsgBuffer (cs w2) = MsgBuffer (cs w) ∧
        chan_cap (events (cs w2)) = chan_cap (events (cs w)) ∧
        length (rchans w2) = length (rchans w).
Proof.
  intros Hwf Hev Hch. unfold submit. case_decide.
  - exists (set_queue (queue w ++ [ev]) w), (queue w).
    destruct Hwf as (Hl & Hq & Hb0). split_and!; try done.
    apply wf_world_intro; [done| |done]. by apply (wf_queue_snoc w).
  - rewrite serve_serves.
    destruct (serves_total 1 w Hwf)
      as (w1 & -> & (Hl & Hq & Hb0) & Hq1 & Hh & Hm & Hb & Hc & Hn & Hlive).
    simpl. exists (set_queue (queue w1 ++ [ev]) w1), (queue w1).
    split_and!; try done.
    + apply wf_world_intro; [done| |done]. apply (wf_queue_snoc w1); [done| |done].
      by apply (wf_event_no_reply w).
    + intros Hnil. rewrite Hnil in Hq1, Hlive. split; [done|]. exact Hlive.
Qed.

(** Allocating records and message channels keeps a state well-formed. *)
Lemma alloc_wf w hs ms :
  wf_world w →
  wf_world (MkWorld (cs w) (heap w ++ hs) (mchans w ++ ms) (rchans w) (trace w) (iter w)).
Proof.
  intros (Hl & Hq & Hb0). apply wf_world_intro.
  - apply (wf_live_mono w); [|done|done]. intros p c. simpl. apply lookup_app_l_Some.
  - apply (wf_queue_mono w); [|done|done]. intros p c. simpl. apply lookup_app_l_Some.
  - done.
Qed.

(** ** [Remove] *)

(** What [Remove] does, in full: [wd] is the state once the listener has
    served the requests that were waiting, which is when it takes this
    one. *)
Lemma Remove_spec clientID w :
  wf_world w →
  ∃ wd w',
    drain w = Ok wd ∧ wf_world wd ∧ queue wd = [] ∧
    length (rchans wd) = length (rchans w) ∧
    Clients_Remove clientID w = Ok (len (live w'), w') ∧
    wf_world w' ∧ queue w' = [] ∧
    live w' = delete clientID (live wd) ∧
    rchans w' !! length (rchans w) = Some (Some None) ∧
    MsgBuffer (cs w') = MsgBuffer (cs w) ∧
    chan_cap (events (cs w')) = chan_cap (events (cs w)) ∧
    trace w' =
      trace wd ++
      match live wd !! clientID ≫= (heap wd !!.) with
      | Some c => [CtxDone (Ctx c)]
      | None => []
      end ++ [Reply (length (rchans w)) None].
Proof.
  intros Hwf.
  set (ev := MkEvent eTypeRemoveClient clientID None (Some (length (rchans w)))).
  destruct (call_total ev w Hwf eq_refl eq_refl)
    as (wd & w' & r & w2 & Hd & Hwd & Hqd & Hn & Hs & Hsub & Hrecv & Hr & Hw' & Hq'
        & _ & _ & Hb & Hc).
  exists wd, w'. split_and!; try done.
  - unfold Clients_Remove, make_rchan. fold ev. rewrite Hsub. simpl.
    rewrite Hrecv. done.
  - by destruct (listener_step_frame _ _ _ Hs) as (_ & _ & _ & _ & _ & _ & _ & ->).
  - assert (rchans (add_rchan wd) !! length (rchans w) = Some None) as Hfresh by auto.
    destruct (live wd !! clientID) as [p|] eqn:El.
    + destruct Hwd as [Hl _]. pose proof (Hl _ _ El) as Hp. simpl in Hp.
      destruct (heap wd !! p) as [c|] eqn:Hc'; [|done].
      rewrite (step_remove_present ev (add_rchan wd) (length (rchans w)) p c) in Hs; try done.
      injection Hs as <-. simpl.
      apply list_lookup_insert_eq. by eapply lookup_lt_Some.
    + rewrite (step_remove_absent ev (add_rchan wd) (length (rchans w))) in Hs; try done.
      injection Hs as <-. simpl.
      apply list_lookup_insert_eq. by eapply lookup_lt_Some.
  - assert (rchans (add_rchan wd) !! length (rchans w) = Some None) as Hfresh by auto.
    destruct (live wd !! clientID) as [p|] eqn:El.
    + destruct Hwd as [Hl _]. pose proof (Hl _ _ El) as Hp. simpl in Hp.
      destruct (heap wd !! p) as [c|] eqn:Hc'; [|done].
      rewrite (step_remove_present ev (add_rchan wd) (length (rchans w)) p c) in Hs; try done.
      injection Hs as <-. simpl. rewrite Hc'. simpl. by rewrite <-app_assoc.
    + rewrite (step_remove_absent ev (add_rchan wd) (length (rchans w))) in Hs; try done.
      injection Hs as <-. done.
Qed.

(** C4.  [Remove(id)] always returns, with the size of the map read after
    the listener has answered with a nil acknowledgement.  With [wd] the
    state in which the listener takes the request: for an id that has no
    entry the map and its size stay as they are; for an id that has one,
    that entry is deleted, every other entry stays, and the size is one
    less. *)
Theorem Remove_absent_noop_present_deletes clientID w :
  wf_world w →
  ∃ wd w',
    drain w = Ok wd ∧
    Clients_Remove clientID w = Ok (len (live w'), w') ∧
    rchans w' !! length (rchans w) = Some (Some None) ∧
    match live wd !! clientID with
    | None => live w' = live wd ∧ len (live w') = len (live wd)
    | Some _ =>
        live w' !! clientID = None ∧
        (∀ k, k ≠ clientID → live w' !! k = live wd !! k) ∧
        len (live w') = len (live wd) - 1
    end.
Proof.
  intros Hwf.
  destruct (Remove_spec clientID w Hwf)
    as (wd & w' & Hd & _ & _ & _ & Hrm & _ & _ & Hlive & Hack & _).
  exists wd, w'. split_and!; try done.
  destruct (live wd !! clientID) as [p|] eqn:El.
  - rewrite Hlive. split_and!.
    + apply lookup_delete_eq.
    + intros k Hk. by apply lookup_delete_ne.
    + unfold len. rewrite map_size_delete_Some by eauto.
      assert (size (live wd) ≠ 0%nat); [|lia].
      intros Hz. apply map_size_empty_inv in Hz. rewrite Hz in El.
      by rewrite lookup_empty in El.
  - rewrite Hlive, delete_id by done. done.
Qed.

(** When the id has an entry, the listener calls the accessor [Done()] on
    the context of the record it removes, and then acknowledges: these are
    the last two actions of the trace, in that order. *)
Lemma Remove_calls_Done_before_reply clientID w wd p :
  wf_world w → drain w = Ok wd → live wd !! clientID = Some p →
  ∃ c w',
    heap wd !! p = Some c ∧ ID c = clientID ∧
    Clients_Remove clientID w = Ok (len (live w'), w') ∧
    trace w' = trace wd ++ [CtxDone (Ctx c); Reply (length (rchans w)) None] ∧
    rchans w' !! length (rchans w) = Some (Some None).
Proof.
  intros Hwf Hd El.
  destruct (Remove_spec clientID w Hwf)
    as (wd' & w' & Hd' & [Hl _] & _ & _ & Hrm & _ & _ & _ & Hack & _ & _ & Htr).
  rewrite Hd in Hd'. injection Hd' as <-.
  pose proof (Hl _ _ El) as Hp. simpl in Hp.
  destruct (heap wd !! p) as [c|] eqn:Hc; [|done].
  injection Hp as Hid.
  exists c, w'. split_and!; try done.
  rewrite Htr, El. simpl. by rewrite Hc.
Qed.

(** C9.  Two calls of [Remove(id)] in a row both return, with the same
    count.  After the first the id has no entry, so the second finds
    nothing to delete: it leaves the map as the first left it, and the
    listener does nothing for it but acknowledge. *)
Theorem Remove_idempotent clientID w :
  wf_world w →
  ∃ n w1 w2,
    Clients_Remove clientID w = Ok (n, w1) ∧
    Clients_Remove clientID w1 = Ok (n, w2) ∧
    live w1 !! clientID = None ∧
    live w2 = live w1 ∧
    n = len (live w1) ∧
    trace w2 = trace w1 ++ [Reply (length (rchans w1)) None].
Proof.
  intros Hwf.
  destruct (Remove_spec clientID w Hwf)
    as (wd & w1 & _ & _ & _ & _ & Hrm1 & Hwf1 & Hq1 & Hlive1 & _).
  destruct (Remove_spec clientID w1 Hwf1)
    as (wd1 & w2 & Hd1 & _ & _ & _ & Hrm2 & _ & _ & Hlive2 & _ & _ & _ & Htr).
  rewrite (drain_idle w1 Hq1) in Hd1. injection Hd1 as <-.
  assert (live w1 !! clientID = None) as Hgone.
  { rewrite Hlive1. apply lookup_delete_eq. }
  assert (live w2 = live w1) as Heq.
  { by rewrite Hlive2, Hlive1, delete_delete_eq. }
  exists (len (live w1)), w1, w2. split_and!; try done.
  - by rewrite Hrm2, Heq.
  - by rewrite Htr, Hgone.
Qed.

(** ** [Clients], [Range] and [Client]: the methods that ask for the list *)

(** The snapshot lists the values of the map, one per entry. *)
Lemma copied_perm n (m : gmap string nat) :
  copied n m ≡ₚ Some <$> (map_to_list m).*2.
Proof.
  unfold copied. rewrite (range_keys_perm n m).
  enough ((λ clientID, m !! clientID) <$> (map_to_list m).*1
          = Some <$> (map_to_list m).*2) as -> by done.
  rewrite <-!list_fmap_compose. apply Forall_fmap_ext_1.
  apply Forall_forall. intros [k p] Hin. simpl.
  by apply elem_of_map_to_list.
Qed.

(** Records filed under their own ids are filed once. *)
Lemma wf_live_NoDup w : wf_live w → NoDup (map_to_list (live w)).*2.
Proof.
  intros Hl. apply NoDup_fmap_2_strong; [|apply NoDup_map_to_list].
  intros [k1 p1] [k2 p2] H1%elem_of_map_to_list H2%elem_of_map_to_list Heq.
  simpl in Heq. subst p2.
  pose proof (Hl _ _ H1) as E1. pose proof (Hl _ _ H2) as E2. simpl in *.
  congruence.
Qed.

(** A list request, from the send to the reply: [wd] is the state in which
    the listener takes it. *)
Lemma list_call_spec w :
  wf_world w →
  ∃ wd w' w2,
    drain w = Ok wd ∧ wf_world wd ∧ queue wd = [] ∧
    submit (MkEvent eTypeClientList "" None (Some (length (rchans w)))) (add_rchan w)
      = Ok w2 ∧
    recv (length (rchans w)) w2
      = Ok (Some (MkResponse (copied (iter wd) (live wd)) 0 None), w') ∧
    wf_world w' ∧ queue w' = [] ∧ live w' = live wd ∧
    trace w' = trace wd ++
      [Reply (length (rchans w)) (Some (MkResponse (copied (iter wd) (live wd)) 0 None))] ∧
    MsgBuffer (cs w') = MsgBuffer (cs w) ∧
    chan_cap (events (cs w')) = chan_cap (events (cs w)).
Proof.
  intros Hwf.
  set (ev := MkEvent eTypeClientList "" None (Some (length (rchans w)))).
  destruct (call_total ev w Hwf eq_refl eq_refl)
    as (wd & w' & r & w2 & Hd & Hwd & Hqd & Hn & Hs & Hsub & Hrecv & Hr & Hw' & Hq'
        & _ & _ & Hb & Hc).
  assert (rchans (add_rchan wd) !! length (rchans w) = Some None) as Hfresh by auto.
  rewrite (step_list ev (add_rchan wd) (length (rchans w))) in Hs; try done.
  injection Hs as Hw.
  assert (r = Some (MkResponse (copied (iter wd) (live wd)) 0 None)) as ->.
  { rewrite <-Hw in Hr. simpl in Hr.
    rewrite list_lookup_insert_eq in Hr by (by eapply lookup_lt_Some).
    by injection Hr as <-. }
  exists wd, w', w2. split_and!; try done; by rewrite <-Hw.
Qed.

Lemma Clients_spec w :
  wf_world w →
  ∃ wd w',
    drain w = Ok wd ∧ wf_world wd ∧
    Clients_Clients w = Ok (copied (iter wd) (live wd), w') ∧
    wf_world w' ∧ queue w' = [] ∧ live w' = live wd ∧
    MsgBuffer (cs w') = MsgBuffer (cs w).
Proof.
  intros Hwf.
  destruct (list_call_spec w Hwf)
    as (wd & w' & w2 & Hd & Hwd & _ & Hsub & Hrecv & Hw' & Hq' & Hl & _ & Hb & _).
  exists wd, w'. split_and!; try done.
  unfold Clients_Clients, make_rchan. rewrite Hsub. simpl. by rewrite Hrecv.
Qed.

(** [Client] returns, and what it returns is nil whatever the id. *)
Lemma Client_nil clientID w :
  wf_world w →
  ∃ w', Clients_Client clientID w = Ok (None, w') ∧
        wf_world w' ∧ MsgBuffer (cs w') = MsgBuffer (cs w).
Proof.
  intros Hwf.
  destruct (list_call_spec w Hwf)
    as (wd & w' & w2 & Hd & Hwd & _ & Hsub & Hrecv & Hw' & Hq' & Hl & _ & Hb & _).
  exists w'. split_and!; try done.
  unfold Clients_Client, make_rchan. rewrite Hsub. simpl. by rewrite Hrecv.
Qed.

(** The loop [for i := range cls { f(cls[i]) }] visits [cls] in order. *)
Lemma range_loop {V} (f : option nat → V → V) (cls : list (option nat)) v :
  foldl (λ acc i, match cls !! i with Some c => f c acc | None => acc end)
        v (seq 0 (length cls))
  = visit_all f v cls.
Proof.
  unfold visit_all. revert v. induction cls as [|c cls IH]; intros v; [done|].
  cbn [length seq foldl]. rewrite <-fmap_S_seq, foldl_fmap. simpl. apply IH.
Qed.

(** A visitor that writes down what it is given writes down the list. *)
Lemma visit_all_record (cls visited : list (option nat)) :
  visit_all (λ c visited, visited ++ [c]) visited cls = visited ++ cls.
Proof.
  unfold visit_all. revert visited.
  induction cls as [|c cls IH]; intros visited; simpl.
  - by rewrite app_nil_r.
  - by rewrite IH, <-app_assoc.
Qed.

(** C3.  [Clients()] returns a copy of the registry as it is when the
    listener takes the request (state [wd]): the returned sequence is a
    permutation of the values of the map, one per entry, no record twice;
    and the map is afterwards what it was then. *)
Theorem Clients_returns_snapshot w :
  wf_world w →
  ∃ wd snapshot w',
    drain w = Ok wd ∧
    Clients_Clients w = Ok (snapshot, w') ∧
    snapshot ≡ₚ Some <$> (map_to_list (live wd)).*2 ∧
    NoDup snapshot ∧
    (∀ p, Some p ∈ snapshot ↔ ∃ k, live wd !! k = Some p) ∧
    length snapshot = size (live wd) ∧
    live w' = live wd.
Proof.
  intros Hwf.
  destruct (Clients_spec w Hwf) as (wd & w' & Hd & [Hl _] & Hc & _ & _ & Hlive & _).
  pose proof (copied_perm (iter wd) (live wd)) as Hperm.
  exists wd, (copied (iter wd) (live wd)), w'. split_and!; try done.
  - rewrite Hperm. apply (NoDup_fmap_2 _). by apply wf_live_NoDup.
  - intros p. rewrite Hperm. rewrite (list_elem_of_fmap_inj Some).
    rewrite list_elem_of_fmap. split.
    + intros ([k p'] & -> & Hin%elem_of_map_to_list). eauto.
    + intros [k Hk]. exists (k, p). split; [done|]. by apply elem_of_map_to_list.
  - rewrite Hperm, !length_fmap. apply length_map_to_list.
Qed.

(** C8.  [Range(f)] is [Clients()] followed by a visit of the snapshot, one
    call of [f] per record and in sequence; in particular the records it
    visits, in order, are the snapshot itself, and it leaves the registry in
    the state [Clients()] leaves it in. *)
Theorem Range_is_Clients_then_visit {V} (f : option nat → V → V) (v : V) w :
  Clients_Range f v w
    = ('(snapshot, w') ← Clients_Clients w; Ok (visit_all f v snapshot, w')) ∧
  Clients_Range (λ c visited, visited ++ [c]) [] w = Clients_Clients w.
Proof.
  assert (∀ U (g : option nat → U → U) (u : U),
    Clients_Range g u w
      = ('(snapshot, w') ← Clients_Clients w; Ok (visit_all g u snapshot, w'))) as Hgen.
  { intros U g u. unfold Clients_Range, Clients_Clients. simpl.
    destruct (submit _ _) as [w2| |]; simpl; [|done..].
    destruct (recv _ w2) as [[[r|] w']| |]; simpl; [|done..].
    by rewrite range_loop. }
  split; [apply Hgen|]. rewrite Hgen.
  destruct (Clients_Clients w) as [[snapshot w']| |]; simpl; [|done..].
  by rewrite visit_all_record.
Qed.

(** ** The listener and the map *)

(** C6.  An insert for an id that already has an entry: the listener
    returns without a reply or any other visible action; the entry for the
    id is now the new record; the record that was there is the value of no
    key any more; the other entries, and the size, are as before. *)
Theorem insert_overwrites ev w p c old :
  wf_live w →
  ev_Type ev = eTypeNewClient → ev_Client ev = Some p → heap w !! p = Some c →
  live w !! ID c = Some old → p ≠ old →
  ∃ w',
    listener_step ev w = Ok w' ∧
    live w' = <[ID c := p]> (live w) ∧
    live w' !! ID c = Some p ∧
    (∀ k, live w' !! k ≠ Some old) ∧
    (∀ k, k ≠ ID c → live w' !! k = live w !! k) ∧
    trace w' = trace w ∧ rchans w' = rchans w ∧
    len (live w') = len (live w).
Proof.
  intros Hl Ht Hc Hp Hold Hne.
  exists (set_clients (<[ID c := p]> (live w)) w).
  split; [by apply step_new|]. simpl. unfold live in *. simpl.
  split_and!; try done.
  - apply lookup_insert_eq.
  - intros k Hk. destruct (decide (k = ID c)) as [->|Hkc].
    + rewrite lookup_insert_eq in Hk. congruence.
    + rewrite lookup_insert_ne in Hk by done.
      pose proof (Hl _ _ Hk) as E1. pose proof (Hl _ _ Hold) as E2.
      simpl in *. congruence.
  - intros k Hk. by apply lookup_insert_ne.
  - unfold len. f_equal. apply map_size_insert_Some. eauto.
Qed.

Lemma dom_apply_requests (m : gmap string nat) rs :
  dom (apply_requests m rs) = foldl apply_id (dom m) rs.
Proof.
  unfold apply_requests. revert m.
  induction rs as [|r rs IH]; intros m; simpl; [done|].
  rewrite IH. f_equal. destruct r; simpl.
  - apply dom_insert_L.
  - apply dom_delete_L.
Qed.

Lemma requests_of_singleton h ev :
  requests_of h [ev] = option_list (request_of h ev).
Proof. by rewrite requests_of_cons, app_nil_r. Qed.

(** C2.  The listener serves any sequence of well-formed requests, starting
    on the empty map.  The map it ends with is the add and remove requests
    of the sequence applied one at a time, oldest first, and its keys are
    the ids added minus the ids removed, in that order.  The same holds at
    every point of the sequence: before a request [ev] is served the map is
    that of the requests before it, one step later it is that of the
    requests up to it, and a list request served at that point is answered
    with the enumeration of exactly that map. *)
Theorem listener_applies_requests_in_order evs w :
  live w = ∅ → wf_queue w evs →
  ∃ w',
    listener evs w = Ok w' ∧
    live w' = apply_requests ∅ (requests_of (heap w) evs) ∧
    dom (live w') = live_ids (requests_of (heap w) evs) ∧
    ∀ pre ev post, evs = pre ++ ev :: post →
      ∃ w1 w2,
        listener pre w = Ok w1 ∧
        live w1 = apply_requests ∅ (requests_of (heap w) pre) ∧
        listener_step ev w1 = Ok w2 ∧
        live w2 = apply_requests ∅ (requests_of (heap w) (pre ++ [ev])) ∧
        listener post w2 = Ok w' ∧
        (ev_Type ev = eTypeClientList →
         ∃ ch, ev_Response ev = Some ch ∧
               rchans w2 !! ch
               = Some (Some (Some (MkResponse (copied (iter w1) (live w1)) 0 None)))).
Proof.
  intros Hempty Hq.
  destruct (listener_total evs w) as (w' & Hrun & _); [|done|].
  { unfold wf_live. rewrite Hempty. apply map_Forall_empty. }
  exists w'. split; [done|].
  destruct (listener_frame _ _ _ Hrun) as (_ & _ & _ & _ & _ & _ & _ & Hlive).
  rewrite Hempty in Hlive. split; [done|]. split.
  { rewrite Hlive, dom_apply_requests, dom_empty_L. done. }
  intros pre ev post ->.
  rewrite listener_app in Hrun. apply bind_Ok in Hrun as (w1 & Hpre & Hrun).
  cbn [listener] in Hrun. apply bind_Ok in Hrun as (w2 & Hs & Hpost).
  destruct (listener_frame _ _ _ Hpre) as (Hh1 & _ & _ & _ & _ & _ & _ & Hlive1).
  destruct (listener_step_frame _ _ _ Hs) as (_ & _ & _ & _ & _ & _ & _ & Hlive2).
  rewrite Hempty in Hlive1.
  exists w1, w2. split_and!; try done.
  - rewrite Hlive2, Hlive1, Hh1, requests_of_app, requests_of_singleton.
    unfold apply_requests. by rewrite foldl_app.
  - intros Ht. unfold listener_step in Hs. rewrite Ht in Hs.
    apply send_Ok in Hs as (ch & Hresp & Hch & ->).
    exists ch. split; [done|]. simpl.
    apply list_lookup_insert_eq. by eapply lookup_lt_Some.
Qed.

(** ** [New] *)

(** What [New] does, in full: [w2] is the state right after the send, [w']
    the one in which [len(cs.clients)] is read. *)
Lemma New_spec sched ctx rw clientID w :
  wf_world w →
  let cli := length (heap w) in
  let c := MkClient clientID (length (mchans w)) rw ctx in
  let ev := MkEvent eTypeNewClient "" (Some cli) None in
  ∃ w2 w' q,
    Clients_New sched ctx rw clientID w = Ok ((cli, len (live w')), w') ∧
    serves sched w2 = Ok w' ∧
    wf_world w2 ∧ queue w2 = q ++ [ev] ∧
    (queue w = [] → q = [] ∧ live w2 = live w) ∧
    wf_world w' ∧
    heap w' = heap w ++ [c] ∧
    mchans w' = mchans w ++ [MsgBuffer (cs w)] ∧
    MsgBuffer (cs w') = MsgBuffer (cs w) ∧
    chan_cap (events (cs w')) = chan_cap (events (cs w)).
Proof.
  intros Hwf cli c ev.
  assert (0 ≤ MsgBuffer (cs w) ≤ chan_max) as Hbuf by apply Hwf.
  set (wa := MkWorld (cs w) (heap w ++ [c]) (mchans w ++ [MsgBuffer (cs w)])
                     (rchans w) (trace w) (iter w)).
  assert (wf_world wa) as Hwa by apply (alloc_wf w [c] [MsgBuffer (cs w)] Hwf).
  assert (wf_event wa ev) as Hev.
  { unfold wf_event. simpl. unfold cli. rewrite lookup_snoc_new. simpl. eauto. }
  destruct (submit_total ev wa Hwa Hev eq_refl)
    as (w2 & q & Hsub & Hw2 & Hq2 & Hidle & Hh2 & Hm2 & Hb2 & Hc2 & _).
  destruct (serves_total sched w2 Hw2)
    as (w' & Hrun & Hw' & _ & Hh' & Hm' & Hb' & Hc' & _).
  simpl in Hh2, Hm2, Hb2, Hc2.
  exists w2, w', q. split_and!; try done; try congruence.
  unfold Clients_New, make_mchan, new_client.
  rewrite decide_False by lia. simpl. fold c wa.
  unfold ev, cli in Hsub. rewrite Hsub. simpl. rewrite Hrun. done.
Qed.

(** ** Programs of calls *)

Lemma Range_total {V} (f : option nat → V → V) (v : V) w :
  wf_world w →
  ∃ v' w', Clients_Range f v w = Ok (v', w') ∧
           wf_world w' ∧ MsgBuffer (cs w') = MsgBuffer (cs w).
Proof.
  intros Hwf.
  destruct (list_call_spec w Hwf)
    as (wd & w' & w2 & Hd & Hwd & _ & Hsub & Hrecv & Hw' & Hq' & Hl & _ & Hb & _).
  eexists _, w'. split_and!; try done.
  unfold Clients_Range, make_rchan. rewrite Hsub. simpl. by rewrite Hrecv.
Qed.

(** Every call returns and keeps the state well-formed and the configured
    buffer size as it is. *)
Lemma run_call_total c w :
  wf_world w →
  ∃ w', run_call c w = Ok w' ∧ wf_world w' ∧ MsgBuffer (cs w') = MsgBuffer (cs w).
Proof.
  intros Hwf. destruct c as [sched ctx rw clientID| |clientID| | |clientID]; simpl.
  - destruct (New_spec sched ctx rw clientID w Hwf)
      as (w2 & w' & q & -> & _ & _ & _ & _ & Hw' & _ & _ & Hb & _).
    by exists w'.
  - destruct (Range_total (λ _ (u : unit), u) () w Hwf) as (v' & w' & -> & Hw' & Hb).
    by exists w'.
  - destruct (Remove_spec clientID w Hwf)
      as (wd & w' & _ & _ & _ & _ & -> & Hw' & _ & _ & _ & Hb & _).
    by exists w'.
  - by exists w.
  - destruct (Clients_spec w Hwf) as (wd & w' & _ & _ & -> & Hw' & _ & _ & Hb).
    by exists w'.
  - destruct (Client_nil clientID w Hwf) as (w' & -> & Hw' & Hb).
    by exists w'.
Qed.

Lemma run_calls_total calls w :
  wf_world w →
  ∃ w', run_calls calls w = Ok w' ∧ wf_world w' ∧ MsgBuffer (cs w') = MsgBuffer (cs w).
Proof.
  revert w. induction calls as [|c calls IH]; intros w Hwf; simpl.
  - by exists w.
  - destruct (run_call_total c w Hwf) as (w1 & -> & Hw1 & Hb1). simpl.
    destruct (IH w1 Hw1) as (w' & Hrun & Hw' & Hb').
    exists w'. split_and!; [done..|congruence].
Qed.

Lemma wf_NewClientManager : wf_world NewClientManager.
Proof.
  apply wf_world_intro; [apply map_Forall_empty|apply wf_queue_nil|].
  split; [done|apply chan_max_ten].
Qed.

(** C10.  [NewClientManager()] gives a registry with an empty map, nothing
    waiting, and 10 both for [MsgBuffer] and for the capacity of the request
    channel.  Whatever calls are made on it, they return, and a [New] after
    them returns a record whose message channel has capacity 10. *)
Theorem NewClientManager_buffers_are_10 :
  live NewClientManager = ∅ ∧ queue NewClientManager = [] ∧
  MsgBuffer (cs NewClientManager) = 10 ∧
  chan_cap (events (cs NewClientManager)) = 10 ∧
  ∀ calls sched ctx rw clientID,
    ∃ w cli n w' c,
      run_calls calls NewClientManager = Ok w ∧
      Clients_New sched ctx rw clientID w = Ok ((cli, n), w') ∧
      heap w' !! cli = Some c ∧ mchans w' !! Msg c = Some 10.
Proof.
  split_and!; try done.
  intros calls sched ctx rw clientID.
  destruct (run_calls_total calls NewClientManager wf_NewClientManager)
    as (w & Hrun & Hwf & Hb).
  change (MsgBuffer (cs NewClientManager)) with 10 in Hb.
  destruct (New_spec sched ctx rw clientID w Hwf) as
    (w2 & w' & q & Hnew & _ & _ & _ & _ & _ & Hh & Hm & _).
  eexists w, _, _, w', _. split_and!; [done|exact Hnew| |].
  - rewrite Hh. apply lookup_snoc_new.
  - rewrite Hm, Hb. apply lookup_snoc_new.
Qed.

(** X11.  When nothing waits, [Active()] is the length of the snapshot
    that [Clients()] returns, and [Clients()] leaves [Active()] as it
    is. *)
Lemma Active_quiescent w :
  wf_world w → queue w = [] →
  ∃ snapshot w',
    Clients_Clients w = Ok (snapshot, w') ∧
    Clients_Active w = Z.of_nat (length snapshot) ∧
    Clients_Active w' = Clients_Active w.
Proof.
  intros Hwf Hq.
  destruct (Clients_spec w Hwf) as (wd & w' & Hd & _ & Hc & _ & _ & Hlive & _).
  rewrite (drain_idle w Hq) in Hd. injection Hd as <-.
  exists (copied (iter w) (live w)), w'. split_and!; [done| |].
  - unfold Clients_Active, len. f_equal.
    rewrite (copied_perm (iter w) (live w)), !length_fmap.
    symmetry. apply length_map_to_list.
  - unfold Clients_Active. by rewrite Hlive.
Qed.

(** * More of the registry's behaviour *)

(** ** The settled map *)

Lemma request_of_mono w w' ev :
  (∀ p c, heap w !! p = Some c → heap w' !! p = Some c) →
  wf_event w ev → request_of (heap w') ev = request_of (heap w) ev.
Proof.
  intros Hh. unfold wf_event, request_of. destruct (ev_Type ev); try done.
  destruct (ev_Client ev) as [p|]; simpl; [|by intros [? ?]].
  intros [c Hc]. by rewrite Hc, (Hh _ _ Hc).
Qed.

Lemma requests_of_mono w w' evs :
  (∀ p c, heap w !! p = Some c → heap w' !! p = Some c) →
  Forall (wf_event w) evs → requests_of (heap w') evs = requests_of (heap w) evs.
Proof.
  intros Hh Hall. unfold requests_of. apply list_omap_ext.
  induction Hall as [|ev evs Hev _ IH]; constructor; [|done].
  rewrite (request_of_mono w w' ev Hh Hev). by destruct (request_of (heap w) ev).
Qed.

Lemma apply_requests_app m rs1 rs2 :
  apply_requests m (rs1 ++ rs2) = apply_requests (apply_requests m rs1) rs2.
Proof. apply foldl_app. Qed.

Lemma settled_idle w : queue w = [] → settled w = live w.
Proof. unfold settled. by intros ->. Qed.

(** Serving requests does not change what the queue leads to. *)
Lemma serves_settled n w w' :
  wf_world w → serves n w = Ok w' →
  wf_world w' ∧ settled w' = settled w ∧ heap w' = heap w ∧ mchans w' = mchans w ∧
  MsgBuffer (cs w') = MsgBuffer (cs w) ∧
  chan_cap (events (cs w')) = chan_cap (events (cs w)) ∧
  length (rchans w') = length (rchans w) ∧
  queue w' = drop n (queue w).
Proof.
  intros Hwf Hrun.
  destruct (serves_total n w Hwf) as (w'' & Hrun' & Hwf' & Hq & Hh & Hm & Hb & Hc & Hn & Hl).
  rewrite Hrun in Hrun'. injection Hrun' as <-.
  split_and!; try done.
  unfold settled. rewrite Hl, Hq, Hh, <-apply_requests_app, <-requests_of_app.
  by rewrite take_drop.
Qed.

Lemma drain_settled w wd :
  wf_world w → drain w = Ok wd →
  wf_world wd ∧ queue wd = [] ∧ live wd = settled w.
Proof.
  intros Hwf Hd.
  destruct (drain_total w Hwf) as (wd' & Hd' & Hwd & Hq & _ & _ & _ & _ & _ & Hl).
  rewrite Hd in Hd'. by injection Hd' as <-.
Qed.

(** Sending a request that expects no reply adds it to what the queue leads
    to, whether or not the sender had to wait for room. *)
Lemma submit_settled ev w w2 :
  wf_world w → wf_event w ev → reply_chan ev = None → submit ev w = Ok w2 →
  wf_world w2 ∧
  settled w2 = apply_requests (settled w) (option_list (request_of (heap w) ev)) ∧
  heap w2 = heap w ∧ mchans w2 = mchans w ∧
  MsgBuffer (cs w2) = MsgBuffer (cs w) ∧
  chan_cap (events (cs w2)) = chan_cap (events (cs w)) ∧
  length (rchans w2) = length (rchans w).
Proof.
  intros Hwf Hev Hch Hsub.
  destruct (submit_total ev w Hwf Hev Hch)
    as (w2' & q & Hsub' & Hw2 & Hq2 & _ & Hh & Hm & Hb & Hc & Hn).
  rewrite Hsub in Hsub'. injection Hsub' as <-.
  split_and!; try done.
  unfold submit in Hsub. case_decide.
  - injection Hsub as <-.
    change (settled (set_queue (queue w ++ [ev]) w))
      with (apply_requests (live w) (requests_of (heap w) (queue w ++ [ev]))).
    by rewrite requests_of_app, apply_requests_app, requests_of_singleton.
  - rewrite serve_serves in Hsub. apply bind_Ok in Hsub as (w1 & Hs & Hsub).
    injection Hsub as <-.
    destruct (serves_settled 1 w w1 Hwf Hs) as (_ & Hset & Hh1 & _).
    change (settled (set_queue (queue w1 ++ [ev]) w1))
      with (apply_requests (live w1) (requests_of (heap w1) (queue w1 ++ [ev]))).
    rewrite requests_of_app, apply_requests_app, requests_of_singleton.
    fold (settled w1). by rewrite Hset, Hh1.
Qed.

(** A send either finds room, or waits for the listener to serve the oldest
    request first. *)
Lemma submit_queue ev w w2 :
  submit ev w = Ok w2 →
  (Z.of_nat (length (queue w)) ≤ chan_cap (events (cs w)) ∧
   queue w2 = queue w ++ [ev] ∧ trace w2 = trace w ∧ live w2 = live w) ∨
  (chan_cap (events (cs w)) < Z.of_nat (length (queue w)) ∧
   queue w2 = drop 1 (queue w) ++ [ev]).
Proof.
  unfold submit. case_decide as Hroom.
  - intros [= <-]. by left.
  - intros (w1 & Hs & [= <-])%bind_Ok. right. split; [lia|]. simpl.
    unfold serve in Hs. destruct (queue w) as [|e q] eqn:Eq.
    + injection Hs as <-. by rewrite Eq.
    + destruct (listener_step_frame _ _ _ Hs) as (_ & _ & -> & _). done.
Qed.

(** [New], step by step. *)
Lemma New_unfold sched ctx rw clientID w :
  0 ≤ MsgBuffer (cs w) ≤ chan_max →
  Clients_New sched ctx rw clientID w =
    (w2 ← submit (MkEvent eTypeNewClient "" (Some (length (heap w))) None)
           (MkWorld (cs w)
              (heap w ++ [MkClient clientID (length (mchans w)) rw ctx])
              (mchans w ++ [MsgBuffer (cs w)]) (rchans w) (trace w) (iter w));
     w' ← serves sched w2;
     Ok ((length (heap w), len (live w')), w')).
Proof.
  intros Hbuf. unfold Clients_New, make_mchan, new_client.
  by rewrite decide_False by lia.
Qed.

(** What a [New] that has returned has done, whatever the schedule. *)
Lemma New_settled sched ctx rw clientID w cli n w' :
  wf_world w → Clients_New sched ctx rw clientID w = Ok ((cli, n), w') →
  wf_world w' ∧ cli = length (heap w) ∧ n = len (live w') ∧
  heap w' = heap w ++ [MkClient clientID (length (mchans w)) rw ctx] ∧
  mchans w' = mchans w ++ [MsgBuffer (cs w)] ∧
  settled w' = <[clientID := cli]> (settled w) ∧
  MsgBuffer (cs w') = MsgBuffer (cs w) ∧
  chan_cap (events (cs w')) = chan_cap (events (cs w)) ∧
  length (rchans w') = length (rchans w) ∧
  ∃ k, queue w' = drop k (queue w ++ [MkEvent eTypeNewClient "" (Some cli) None]) ∧
       (Z.of_nat (length (queue w')) ≤ (Z.of_nat (length (queue w)) `max`
                                        (chan_cap (events (cs w)) + 1)) `max` 1).
Proof.
  intros Hwf Hnew.
  set (c := MkClient clientID (length (mchans w)) rw ctx).
  set (ev := MkEvent eTypeNewClient "" (Some (length (heap w))) None).
  set (wa := MkWorld (cs w) (heap w ++ [c]) (mchans w ++ [MsgBuffer (cs w)])
                     (rchans w) (trace w) (iter w)).
  rewrite New_unfold in Hnew by apply Hwf. fold c ev wa in Hnew.
  apply bind_Ok in Hnew as (w2 & Hsub & Hnew).
  apply bind_Ok in Hnew as (w3 & Hrun & Hnew).
  injection Hnew as <- <- <-.
  assert (wf_world wa) as Hwa by apply (alloc_wf w [c] [MsgBuffer (cs w)] Hwf).
  assert (wf_event wa ev) as Hev.
  { unfold wf_event. simpl. rewrite lookup_snoc_new. simpl. eauto. }
  assert (settled wa = settled w) as Hsa.
  { unfold settled. f_equal. apply (requests_of_mono w wa).
    - intros p c'. apply lookup_app_l_Some.
    - apply Hwf. }
  assert (request_of (heap wa) ev = Some (ReqAdd clientID (length (heap w)))) as Hreq.
  { unfold request_of. simpl. by rewrite lookup_snoc_new. }
  destruct (submit_settled ev wa w2 Hwa Hev eq_refl Hsub)
    as (Hw2 & Hs2 & Hh2 & Hm2 & Hb2 & Hc2 & Hn2).
  destruct (serves_settled sched w2 w3 Hw2 Hrun)
    as (Hw3 & Hs3 & Hh3 & Hm3 & Hb3 & Hc3 & Hn3 & Hq3).
  rewrite Hreq, Hsa in Hs2. simpl in Hs2, Hh2, Hm2, Hb2, Hc2, Hn2.
  split_and!; try done; try congruence.
  destruct (submit_queue ev wa w2 Hsub) as [(Hroom & Hq2 & _)|(Hfull & Hq2)];
    change (queue wa) with (queue w) in *;
    change (chan_cap (events (cs wa))) with (chan_cap (events (cs w))) in *.
  - exists sched. rewrite Hq3, Hq2. split; [done|].
    rewrite length_drop, length_app. simpl. lia.
  - destruct (queue w) as [|e q] eqn:Eq.
    + exists sched. rewrite Hq3, Hq2. split; [done|].
      rewrite length_drop. simpl. lia.
    + exists (S sched). rewrite Hq3, Hq2. split; [done|].
      rewrite length_drop, length_app, length_drop. simpl. lia.
Qed.

(** A method that waits for its reply, in terms of the settled map: when it
    returns nothing waits, and the map is what the queue led to with the
    method's own request applied. *)
Lemma call_settled ev w :
  wf_world w →
  reply_chan ev = Some (length (rchans w)) →
  ev_Response ev = Some (length (rchans w)) →
  ∃ wd w' r w2,
    drain w = Ok wd ∧ wf_world wd ∧ live wd = settled w ∧ heap wd = heap w ∧
    submit ev (add_rchan w) = Ok w2 ∧
    recv (length (rchans w)) w2 = Ok (r, w') ∧
    wf_world w' ∧ queue w' = [] ∧
    live w' = apply_requests (settled w) (option_list (request_of (heap w) ev)) ∧
    heap w' = heap w ∧ mchans w' = mchans w ∧
    MsgBuffer (cs w') = MsgBuffer (cs w) ∧
    chan_cap (events (cs w')) = chan_cap (events (cs w)).
Proof.
  intros Hwf Hch Hresp.
  destruct (call_total ev w Hwf Hch Hresp)
    as (wd & w' & r & w2 & Hd & Hwd & Hqd & Hn & Hs & Hsub & Hrecv & Hr & Hw' & Hq'
        & Hh & Hm & Hb & Hc).
  destruct (drain_settled w wd Hwf Hd) as (_ & _ & Hl).
  destruct (drain_total w Hwf) as (wd' & Hd' & _ & _ & Hhd & _).
  rewrite Hd in Hd'. injection Hd' as <-.
  destruct (listener_step_frame _ _ _ Hs) as (_ & _ & _ & _ & _ & _ & _ & Hlive).
  change (live (add_rchan wd)) with (live wd) in Hlive.
  change (heap (add_rchan wd)) with (heap wd) in Hlive.
  rewrite Hl, Hhd in Hlive.
  exists wd, w', r, w2. split_and!; done.
Qed.

(** What one call does to the state, for every method and every
    schedule. *)
Lemma run_call_spec c w :
  wf_world w →
  ∃ w',
    run_call c w = Ok w' ∧ wf_world w' ∧
    settled w' =
      match c with
      | CallNew _ _ _ clientID => <[clientID := length (heap w)]> (settled w)
      | CallRemove clientID => delete clientID (settled w)
      | CallRange | CallActive | CallClients | CallClient _ => settled w
      end ∧
    match c with
    | CallNew _ _ _ _ | CallActive => True
    | CallRange | CallRemove _ | CallClients | CallClient _ => queue w' = []
    end ∧
    (∃ hs, heap w' = heap w ++ hs) ∧ (∃ ms, mchans w' = mchans w ++ ms) ∧
    MsgBuffer (cs w') = MsgBuffer (cs w) ∧
    chan_cap (events (cs w')) = chan_cap (events (cs w)) ∧
    Z.of_nat (length (queue w'))
      ≤ (Z.of_nat (length (queue w)) `max` (chan_cap (events (cs w)) + 1)) `max` 1 ∧
    (Forall is_insert (queue w) → Forall is_insert (queue w')).
Proof.
  intros Hwf.
  assert (∀ ev w' r w2,
    reply_chan ev = Some (length (rchans w)) →
    ev_Response ev = Some (length (rchans w)) →
    submit ev (add_rchan w) = Ok w2 → recv (length (rchans w)) w2 = Ok (r, w') →
    wf_world w' ∧ queue w' = [] ∧
    live w' = apply_requests (settled w) (option_list (request_of (heap w) ev)) ∧
    heap w' = heap w ∧ mchans w' = mchans w ∧
    MsgBuffer (cs w') = MsgBuffer (cs w) ∧
    chan_cap (events (cs w')) = chan_cap (events (cs w))) as Hcall.
  { intros ev w' r w2 Hch Hresp Hsub Hrecv.
    destruct (call_settled ev w Hwf Hch Hresp)
      as (wd & w'' & r' & w2' & _ & _ & _ & _ & Hsub' & Hrecv' & Hrest).
    rewrite Hsub in Hsub'. injection Hsub' as <-.
    rewrite Hrecv in Hrecv'. by injection Hrecv' as <- <-. }
  assert (∀ w' : World, queue w' = [] →
    Z.of_nat (length (queue w'))
      ≤ (Z.of_nat (length (queue w)) `max` (chan_cap (events (cs w)) + 1)) `max` 1)
    as Hshort by (intros w' ->; simpl; lia).
  destruct c as [sched ctx rw clientID| |clientID| | |clientID]; simpl.
  - destruct (New_spec sched ctx rw clientID w Hwf)
      as (w2 & w' & q & Hnew & _).
    destruct (New_settled _ _ _ _ _ _ _ _ Hwf Hnew)
      as (Hw' & _ & _ & Hh & Hm & Hs & Hb & Hc & _ & k & Hq & Hlen).
    rewrite Hnew. simpl. exists w'. split_and!; eauto.
    intros Hins. rewrite Hq. apply Forall_drop, Forall_app. split; [done|].
    by apply Forall_singleton.
  - destruct (list_call_spec w Hwf)
      as (wd & w' & w2 & _ & _ & _ & Hsub & Hrecv & _).
    destruct (Hcall (MkEvent eTypeClientList "" None (Some (length (rchans w)))) _ _ _
                eq_refl eq_refl Hsub Hrecv)
      as (Hw' & Hq & Hl & Hh & Hm & Hb & Hc).
    unfold Clients_Range, make_rchan. rewrite Hsub. simpl. rewrite Hrecv. simpl.
    exists w'. split_and!; try done.
    + by rewrite (settled_idle w' Hq).
    + exists []. by rewrite app_nil_r.
    + exists []. by rewrite app_nil_r.
    + by apply Hshort.
    + intros _. rewrite Hq. constructor.
  - destruct (Remove_spec clientID w Hwf)
      as (wd & w' & _ & _ & _ & _ & Hrm & _).
    unfold Clients_Remove, make_rchan in Hrm.
    apply bind_Ok in Hrm as (w2 & Hsub & Hrm).
    apply bind_Ok in Hrm as ([r w''] & Hrecv & Hrm). injection Hrm as Hn ->.
    destruct (Hcall (MkEvent eTypeRemoveClient clientID None (Some (length (rchans w)))) _ _ _
                eq_refl eq_refl Hsub Hrecv)
      as (Hw' & Hq & Hl & Hh & Hm & Hb & Hc).
    unfold Clients_Remove, make_rchan. rewrite Hsub. simpl. rewrite Hrecv. simpl.
    exists w'. split_and!; try done.
    + by rewrite (settled_idle w' Hq).
    + exists []. by rewrite app_nil_r.
    + exists []. by rewrite app_nil_r.
    + by apply Hshort.
    + intros _. rewrite Hq. constructor.
  - exists w. split_and!; try done.
    + exists []. by rewrite app_nil_r.
    + exists []. by rewrite app_nil_r.
    + lia.
  - destruct (list_call_spec w Hwf)
      as (wd & w' & w2 & _ & _ & _ & Hsub & Hrecv & _).
    destruct (Hcall (MkEvent eTypeClientList "" None (Some (length (rchans w)))) _ _ _
                eq_refl eq_refl Hsub Hrecv)
      as (Hw' & Hq & Hl & Hh & Hm & Hb & Hc).
    unfold Clients_Clients, make_rchan. rewrite Hsub. simpl. rewrite Hrecv. simpl.
    exists w'. split_and!; try done.
    + by rewrite (settled_idle w' Hq).
    + exists []. by rewrite app_nil_r.
    + exists []. by rewrite app_nil_r.
    + by apply Hshort.
    + intros _. rewrite Hq. constructor.
  - destruct (list_call_spec w Hwf)
      as (wd & w' & w2 & _ & _ & _ & Hsub & Hrecv & _).
    destruct (Hcall (MkEvent eTypeClientList "" None (Some (length (rchans w)))) _ _ _
                eq_refl eq_refl Hsub Hrecv)
      as (Hw' & Hq & Hl & Hh & Hm & Hb & Hc).
    unfold Clients_Client, make_rchan. rewrite Hsub. simpl. rewrite Hrecv. simpl.
    exists w'. split_and!; try done.
    + by rewrite (settled_idle w' Hq).
    + exists []. by rewrite app_nil_r.
    + exists []. by rewrite app_nil_r.
    + by apply Hshort.
    + intros _. rewrite Hq. constructor.
Qed.

(** What a program of calls does to the state. *)
Lemma run_calls_spec calls w :
  wf_world w →
  ∃ w',
    run_calls calls w = Ok w' ∧ wf_world w' ∧
    dom (settled w') = foldl call_ids (dom (settled w)) calls ∧
    (∃ hs, heap w' = heap w ++ hs) ∧ (∃ ms, mchans w' = mchans w ++ ms) ∧
    MsgBuffer (cs w') = MsgBuffer (cs w) ∧
    chan_cap (events (cs w')) = chan_cap (events (cs w)) ∧
    (0 ≤ chan_cap (events (cs w)) →
     Z.of_nat (length (queue w)) ≤ chan_cap (events (cs w)) + 1 →
     Z.of_nat (length (queue w')) ≤ chan_cap (events (cs w)) + 1) ∧
    (Forall is_insert (queue w) → Forall is_insert (queue w')).
Proof.
  revert w. induction calls as [|c calls IH]; intros w Hwf; cbn [run_calls foldl].
  - exists w. split_and!; try done; exists []; by rewrite app_nil_r.
  - destruct (run_call_spec c w Hwf)
      as (w1 & -> & Hw1 & Hs1 & _ & [hs1 Hh1] & [ms1 Hm1] & Hb1 & Hc1 & Hlen1 & Hins1).
    destruct (IH w1 Hw1)
      as (w' & Hrun & Hw' & Hs & [hs Hh] & [ms Hm] & Hb & Hc & Hlen & Hins).
    simpl. exists w'. split_and!; try done; try congruence.
    + rewrite Hs. f_equal. rewrite Hs1.
      destruct c; simpl; try done; [apply dom_insert_L|apply dom_delete_L].
    + exists (hs1 ++ hs). by rewrite Hh, Hh1, app_assoc.
    + exists (ms1 ++ ms). by rewrite Hm, Hm1, app_assoc.
    + intros Hcap Hq. rewrite Hc1 in Hlen. apply Hlen; lia.
    + auto.
Qed.

(** X1.  After any program of calls, under any schedule, the ids the
    waiting requests lead to are the ids of the [New] calls minus the ids of
    the [Remove] calls, in the order of the calls; once the listener has
    served what waits, these are the keys of the map. *)
Theorem calls_register_ids calls w :
  wf_world w →
  ∃ w' wd,
    run_calls calls w = Ok w' ∧
    dom (settled w') = foldl call_ids (dom (settled w)) calls ∧
    drain w' = Ok wd ∧
    dom (live wd) = foldl call_ids (dom (settled w)) calls.
Proof.
  intros Hwf.
  destruct (run_calls_spec calls w Hwf) as (w' & Hrun & Hw' & Hs & _).
  destruct (drain_total w' Hw') as (wd & Hd & _).
  destruct (drain_settled w' wd Hw' Hd) as (_ & _ & Hl).
  exists w', wd. split_and!; try done. by rewrite Hl.
Qed.

(** X2.  In every state that calls lead to from [NewClientManager()], each
    entry of the map is an allocated record filed under its own [ID], only
    inserts wait in the queue, and at most 11 of them. *)
Theorem reachable_states_are_keyed_by_ID calls :
  ∃ w,
    run_calls calls NewClientManager = Ok w ∧
    (∀ k p, live w !! k = Some p → ∃ c, heap w !! p = Some c ∧ ID c = k) ∧
    Forall is_insert (queue w) ∧
    Z.of_nat (length (queue w)) ≤ 11.
Proof.
  destruct (run_calls_spec calls NewClientManager wf_NewClientManager)
    as (w & Hrun & (Hl & _) & _ & _ & _ & _ & _ & Hlen & Hins).
  exists w. split_and!; try done.
  - intros k p Hk. specialize (Hl k p Hk). simpl in Hl.
    destruct (heap w !! p) as [c|]; [|done]. injection Hl as <-. eauto.
  - by apply Hins.
  - by apply Hlen.
Qed.

(** X3.  The request channel keeps its bound: with a capacity [cap ≥ 0] and
    at most [cap + 1] requests waiting (one with the listener, [cap] in the
    buffer), no program of calls makes more than [cap + 1] wait. *)
Theorem queue_stays_bounded calls w :
  wf_world w →
  0 ≤ chan_cap (events (cs w)) →
  Z.of_nat (length (queue w)) ≤ chan_cap (events (cs w)) + 1 →
  ∃ w',
    run_calls calls w = Ok w' ∧
    chan_cap (events (cs w')) = chan_cap (events (cs w)) ∧
    Z.of_nat (length (queue w')) ≤ chan_cap (events (cs w)) + 1.
Proof.
  intros Hwf Hcap Hq.
  destruct (run_calls_spec calls w Hwf) as (w' & Hrun & _ & _ & _ & _ & _ & Hc & Hlen & _).
  exists w'. split_and!; auto.
Qed.

(** X4.  No call changes what was allocated: a record, once made, stays
    the same record at the same address, a message channel keeps its
    capacity, and [MsgBuffer] keeps its value. *)
Theorem calls_keep_records calls w :
  wf_world w →
  ∃ w',
    run_calls calls w = Ok w' ∧
    (∀ p c, heap w !! p = Some c → heap w' !! p = Some c) ∧
    (∀ i n, mchans w !! i = Some n → mchans w' !! i = Some n) ∧
    MsgBuffer (cs w') = MsgBuffer (cs w).
Proof.
  intros Hwf.
  destruct (run_calls_spec calls w Hwf)
    as (w' & Hrun & _ & _ & [hs Hh] & [ms Hm] & Hb & _).
  exists w'. split_and!; try done.
  - intros p c Hp. rewrite Hh. by apply lookup_app_l_Some.
  - intros i n Hi. rewrite Hm. by apply lookup_app_l_Some.
Qed.

(** ** [New] with the other methods *)

(** A [New] followed by the listener serving all that waits. *)
Lemma New_then_drain sched ctx rw clientID w :
  wf_world w →
  ∃ cli n w' wd,
    Clients_New sched ctx rw clientID w = Ok ((cli, n), w') ∧
    wf_world w' ∧ cli = length (heap w) ∧
    drain w' = Ok wd ∧ wf_world wd ∧ queue wd = [] ∧
    live wd = <[clientID := cli]> (settled w) ∧
    heap w' = heap w ++ [MkClient clientID (length (mchans w)) rw ctx] ∧
    heap wd = heap w' ∧
    mchans w' = mchans w ++ [MsgBuffer (cs w)] ∧
    length (rchans w') = length (rchans w).
Proof.
  intros Hwf.
  destruct (New_spec sched ctx rw clientID w Hwf) as (w2 & w' & q & Hnew & _).
  destruct (New_settled _ _ _ _ _ _ _ _ Hwf Hnew)
    as (Hw' & _ & _ & Hh & Hm & Hs & _ & _ & Hn & _).
  destruct (drain_total w' Hw') as (wd & Hd & Hwd & Hqd & Hhd & _).
  destruct (drain_settled w' wd Hw' Hd) as (_ & _ & Hl).
  eexists _, _, w', wd. split; [exact Hnew|].
  split_and!; try done. by rewrite Hl.
Qed.

(** C7, amended.  [New(ctx, w, id)] returns a newly allocated record with
    the id, context and writer it was given and a newly made message channel
    of capacity [MsgBuffer].  Under every schedule it has sent its insert,
    a request without a response channel, and made no channel to wait on:
    the insert is the last of the requests that waited or has been served
    with them, so that what waits leads to the map with the new record
    under [id], and the listener gets there.  The count it returns is the
    size of the map when [New] reads it, however far the listener has got by
    then.  When the listener serves nothing between the send and the read,
    [New] returns with its insert still the last request waiting; if nothing
    else was waiting at the call, the map is then as it was at the call and
    the listener's next step is this insert, so the count is the size of
    the map before the insert. *)
Theorem New_returns_fresh_record sched ctx rw clientID w :
  wf_world w →
  ∃ cli n w' c wd,
    Clients_New sched ctx rw clientID w = Ok ((cli, n), w') ∧
    heap w !! cli = None ∧ heap w' !! cli = Some c ∧
    ID c = clientID ∧ Ctx c = ctx ∧ ResponseWriter c = rw ∧
    mchans w !! Msg c = None ∧ mchans w' !! Msg c = Some (MsgBuffer (cs w)) ∧
    n = len (live w') ∧
    (∃ k, queue w' = drop k (queue w ++ [MkEvent eTypeNewClient "" (Some cli) None])) ∧
    settled w' = <[clientID := cli]> (settled w) ∧
    drain w' = Ok wd ∧ live wd = <[clientID := cli]> (settled w) ∧
    length (rchans w') = length (rchans w) ∧
    (sched = 0%nat →
     ∃ q, queue w' = q ++ [MkEvent eTypeNewClient "" (Some cli) None] ∧
       (queue w = [] →
        q = [] ∧ live w' = live w ∧ n = len (live w) ∧
        live <$> serve w' = Ok (<[clientID := cli]> (live w)))).
Proof.
  intros Hwf.
  destruct (New_spec sched ctx rw clientID w Hwf)
    as (w2 & w' & q & Hnew & Hrun & Hw2 & Hq2 & Hidle & Hw' & Hh & Hm & _).
  destruct (New_settled _ _ _ _ _ _ _ _ Hwf Hnew)
    as (_ & _ & _ & _ & _ & Hs & _ & _ & Hn & k & Hk & _).
  destruct (drain_total w' Hw') as (wd & Hd & _).
  destruct (drain_settled w' wd Hw' Hd) as (_ & _ & Hl).
  eexists _, _, w', (MkClient clientID (length (mchans w)) rw ctx), wd.
  split; [exact Hnew|].
  split_and!; try done.
  - by apply lookup_ge_None.
  - rewrite Hh. apply lookup_snoc_new.
  - by apply lookup_ge_None.
  - rewrite Hm. apply lookup_snoc_new.
  - by exists k.
  - by rewrite Hl.
  - intros ->. simpl in Hrun. injection Hrun as <-.
    exists q. split; [done|]. intros Hnil.
    destruct (Hidle Hnil) as [-> Hlive]. split_and!; try done.
    + by rewrite Hlive.
    + unfold serve. rewrite Hq2. simpl.
      rewrite (step_new _ _ (length (heap w))
                 (MkClient clientID (length (mchans w)) rw ctx)); [|done|done|].
      * unfold live in *. simpl. by rewrite Hlive.
      * simpl. rewrite Hh. apply lookup_snoc_new.
Qed.

(** X5.  Whatever the schedule, once the listener has served what waits
    after [New(ctx, w, id)], the map has the new record under [id], and
    under every other id what the requests waiting before the call led
    to. *)
Theorem New_takes_effect sched ctx rw clientID w :
  wf_world w →
  ∃ cli n w' wd c,
    Clients_New sched ctx rw clientID w = Ok ((cli, n), w') ∧
    drain w' = Ok wd ∧
    live wd !! clientID = Some cli ∧
    heap wd !! cli = Some c ∧
    ID c = clientID ∧ Ctx c = ctx ∧ ResponseWriter c = rw ∧
    (∀ k, k ≠ clientID → live wd !! k = settled w !! k).
Proof.
  intros Hwf.
  destruct (New_then_drain sched ctx rw clientID w Hwf)
    as (cli & n & w' & wd & Hnew & _ & -> & Hd & _ & _ & Hl & Hh & Hhd & _).
  exists (length (heap w)), n, w', wd, (MkClient clientID (length (mchans w)) rw ctx).
  split_and!; try done.
  - rewrite Hl. apply lookup_insert_eq.
  - rewrite Hhd, Hh. apply lookup_snoc_new.
  - intros k Hk. rewrite Hl. by apply lookup_insert_ne.
Qed.

(** X6.  [New(ctx, w, id)] then [Clients()]: whatever the schedule of the
    insert, the snapshot holds the new record, and the map has it under
    [id]. *)
Theorem New_then_Clients_lists_it sched ctx rw clientID w :
  wf_world w →
  ∃ cli n w1 snapshot w2,
    Clients_New sched ctx rw clientID w = Ok ((cli, n), w1) ∧
    Clients_Clients w1 = Ok (snapshot, w2) ∧
    Some cli ∈ snapshot ∧
    live w2 !! clientID = Some cli ∧
    ID <$> heap w2 !! cli = Some clientID.
Proof.
  intros Hwf.
  destruct (New_then_drain sched ctx rw clientID w Hwf)
    as (cli & n & w1 & wd & Hnew & Hw1 & -> & Hd & _ & _ & Hl & Hh & Hhd & _).
  destruct (Clients_spec w1 Hw1) as (wd' & w2 & Hd' & _ & Hc & [Hl2 _] & _ & Hlive & _).
  rewrite Hd in Hd'. injection Hd' as <-.
  assert (live w2 !! clientID = Some (length (heap w))) as Hin.
  { rewrite Hlive, Hl. apply lookup_insert_eq. }
  exists (length (heap w)), n, w1, (copied (iter wd) (live wd)), w2.
  split_and!; try done.
  - rewrite (copied_perm (iter wd) (live wd)).
    apply list_elem_of_fmap. exists (length (heap w)). split; [done|].
    apply list_elem_of_fmap. exists (clientID, length (heap w)). split; [done|].
    apply elem_of_map_to_list. by rewrite <-Hlive.
  - apply (Hl2 _ _ Hin).
Qed.

(** X7.  [New(ctx, w, id)] then [Remove(id)]: whatever the schedule of the
    insert, the map ends up as [Remove(id)] alone would have left it, with
    no entry for [id], and the listener's last two actions are [Done()] on
    the context given to [New], then the acknowledgement. *)
Theorem New_then_Remove_pokes_its_context sched ctx rw clientID w :
  wf_world w →
  ∃ cli n w1 m w2 t,
    Clients_New sched ctx rw clientID w = Ok ((cli, n), w1) ∧
    Clients_Remove clientID w1 = Ok (m, w2) ∧
    live w2 = delete clientID (settled w) ∧
    live w2 !! clientID = None ∧
    trace w2 = t ++ [CtxDone ctx; Reply (length (rchans w)) None].
Proof.
  intros Hwf.
  destruct (New_then_drain sched ctx rw clientID w Hwf)
    as (cli & n & w1 & wd & Hnew & Hw1 & -> & Hd & _ & _ & Hl & Hh & Hhd & _ & Hn).
  destruct (Remove_spec clientID w1 Hw1)
    as (wd' & w2 & Hd' & _ & _ & _ & Hrm & _ & _ & Hlive & _ & _ & _ & Htr).
  rewrite Hd in Hd'. injection Hd' as <-.
  exists (length (heap w)), n, w1, (len (live w2)), w2, (trace wd).
  assert (live w2 = delete clientID (settled w)) as Hl2.
  { by rewrite Hlive, Hl, delete_insert_eq. }
  split_and!; try done.
  - rewrite Hl2. apply lookup_delete_eq.
  - rewrite Htr, Hl, lookup_insert_eq. simpl.
    by rewrite Hhd, Hh, lookup_snoc_new, Hn.
Qed.

(** X8.  Two calls of [New], with the same id or not: the records are at
    different addresses and their message channels are different channels,
    each of capacity [MsgBuffer]; the second call leaves the first record as
    it was. *)
Theorem New_twice_distinct_records s1 ctx1 rw1 id1 s2 ctx2 rw2 id2 w :
  wf_world w →
  ∃ cli1 n1 w1 cli2 n2 w2 c1 c2,
    Clients_New s1 ctx1 rw1 id1 w = Ok ((cli1, n1), w1) ∧
    Clients_New s2 ctx2 rw2 id2 w1 = Ok ((cli2, n2), w2) ∧
    cli1 ≠ cli2 ∧
    heap w1 !! cli1 = Some c1 ∧ heap w2 !! cli1 = Some c1 ∧
    heap w2 !! cli2 = Some c2 ∧
    Msg c1 ≠ Msg c2 ∧
    mchans w2 !! Msg c1 = Some (MsgBuffer (cs w)) ∧
    mchans w2 !! Msg c2 = Some (MsgBuffer (cs w)).
Proof.
  intros Hwf.
  destruct (New_spec s1 ctx1 rw1 id1 w Hwf) as (? & w1 & ? & Hnew1 & _).
  destruct (New_settled _ _ _ _ _ _ _ _ Hwf Hnew1)
    as (Hw1 & _ & _ & Hh1 & Hm1 & _ & Hb1 & _).
  destruct (New_spec s2 ctx2 rw2 id2 w1 Hw1) as (? & w2 & ? & Hnew2 & _).
  destruct (New_settled _ _ _ _ _ _ _ _ Hw1 Hnew2)
    as (Hw2 & _ & _ & Hh2 & Hm2 & _).
  eexists _, _, w1, _, _, w2, _, _. split; [exact Hnew1|]. split; [exact Hnew2|].
  assert (heap w1 !! length (heap w) = Some (MkClient id1 (length (mchans w)) rw1 ctx1))
    as Hc1 by (rewrite Hh1; apply lookup_snoc_new).
  split_and!.
  - rewrite Hh1, length_app. simpl. lia.
  - exact Hc1.
  - rewrite Hh2. by apply lookup_app_l_Some.
  - rewrite Hh2. apply lookup_snoc_new.
  - simpl. rewrite Hm1, length_app. simpl. lia.
  - simpl. rewrite Hm2. apply lookup_app_l_Some. rewrite Hm1. apply lookup_snoc_new.
  - simpl. rewrite Hm2, Hb1. apply lookup_snoc_new.
Qed.

(** X9.  Once the listener has served what waits after [New(ctx, w, id)],
    [Active()] is the size the waiting requests led to before the call, plus
    one unless they led to an entry for [id] already. *)
Theorem New_then_Active sched ctx rw clientID w :
  wf_world w →
  ∃ cli n w' wd,
    Clients_New sched ctx rw clientID w = Ok ((cli, n), w') ∧
    drain w' = Ok wd ∧
    Clients_Active wd =
      len (settled w) + match settled w !! clientID with Some _ => 0 | None => 1 end.
Proof.
  intros Hwf.
  destruct (New_then_drain sched ctx rw clientID w Hwf)
    as (cli & n & w' & wd & Hnew & _ & _ & Hd & _ & _ & Hl & _).
  exists cli, n, w', wd. split_and!; try done.
  unfold Clients_Active, len. rewrite Hl, map_size_insert.
  destruct (settled w !! clientID); unfold id; lia.
Qed.

(** X10.  [New] ends in a panic exactly when [MsgBuffer] is not a size
    [make] accepts: negative, or beyond the largest buffer the runtime
    makes. *)
Theorem New_panics_iff_buffer_out_of_range sched ctx rw clientID w :
  wf_live w → wf_queue w (queue w) →
  (Clients_New sched ctx rw clientID w = Panic
   ↔ MsgBuffer (cs w) < 0 ∨ chan_max < MsgBuffer (cs w)).
Proof.
  intros Hl Hq. split.
  - intros Hpanic.
    destruct (decide (MsgBuffer (cs w) < 0 ∨ chan_max < MsgBuffer (cs w)))
      as [|Hin]; [done|].
    assert (wf_world w) as Hwf by (apply wf_world_intro; [done..|lia]).
    destruct (New_spec sched ctx rw clientID w Hwf) as (? & ? & ? & Hnew & _).
    by rewrite Hnew in Hpanic.
  - intros Hout. unfold Clients_New, make_mchan. by rewrite decide_True.
Qed.

(** ** The methods that read *)

(** X12.  [Client(id)] does what [Clients()] does and drops the list: both
    leave the same state, and [Client] returns nil whatever the id. *)
Theorem Client_is_Clients_without_the_list clientID w :
  wf_world w →
  ∃ snapshot w',
    Clients_Clients w = Ok (snapshot, w') ∧
    Clients_Client clientID w = Ok (None, w').
Proof.
  intros Hwf.
  destruct (list_call_spec w Hwf) as (wd & w' & w2 & _ & _ & _ & Hsub & Hrecv & _).
  exists (copied (iter wd) (live wd)), w'.
  unfold Clients_Clients, Clients_Client, make_rchan.
  rewrite Hsub. simpl. by rewrite Hrecv.
Qed.

Lemma visit_all_count (cls : list (option nat)) (k : nat) :
  visit_all (λ _ k, S k) k cls = (k + length cls)%nat.
Proof.
  unfold visit_all. revert k. induction cls as [|c cls IH]; intros k; simpl.
  - lia.
  - rewrite IH. lia.
Qed.

(** X13.  [Range] calls the visitor as many times as the map the waiting
    requests lead to has entries, and returns with nothing left waiting and
    the map being that map; when it is empty the visitor is not called at
    all. *)
Theorem Range_calls_visitor_once_per_record w :
  wf_world w →
  ∃ w',
    Clients_Range (λ _ k, S k) 0%nat w = Ok (size (settled w), w') ∧
    queue w' = [] ∧ live w' = settled w ∧
    (settled w = ∅ →
     ∀ V (f : option nat → V → V) (v : V), Clients_Range f v w = Ok (v, w')).
Proof.
  intros Hwf.
  destruct (list_call_spec w Hwf)
    as (wd & w' & w2 & Hd & _ & _ & Hsub & Hrecv & _ & Hq & Hl & _).
  destruct (drain_settled w wd Hwf Hd) as (_ & _ & Hs).
  assert (∀ V (f : option nat → V → V) (v : V),
    Clients_Range f v w = Ok (visit_all f v (copied (iter wd) (live wd)), w')) as Hrange.
  { intros V f v. unfold Clients_Range, make_rchan.
    rewrite Hsub. simpl. rewrite Hrecv. simpl. by rewrite range_loop. }
  exists w'. split_and!; try congruence.
  - rewrite Hrange, visit_all_count. do 2 f_equal. simpl.
    rewrite (copied_perm (iter wd) (live wd)), !length_fmap, length_map_to_list.
    by rewrite Hs.
  - intros Hempty V f v. rewrite Hrange. do 2 f_equal.
    assert (copied (iter wd) (live wd) = []) as ->; [|done].
    apply Permutation_nil_r. rewrite (copied_perm (iter wd) (live wd)).
    by rewrite Hs, Hempty, map_to_list_empty.
Qed.

(** X14.  Two calls of [Clients()] in a row return the same records, in
    orders that may differ, and the second leaves the map as the first left
    it. *)
Theorem Clients_twice_same_records w :
  wf_world w →
  ∃ first w1 second w2,
    Clients_Clients w = Ok (first, w1) ∧
    Clients_Clients w1 = Ok (second, w2) ∧
    first ≡ₚ second ∧ live w2 = live w1.
Proof.
  intros Hwf.
  destruct (Clients_spec w Hwf) as (wd & w1 & _ & _ & Hc1 & Hw1 & Hq1 & Hl1 & _).
  destruct (Clients_spec w1 Hw1) as (wd1 & w2 & Hd1 & _ & Hc2 & _ & _ & Hl2 & _).
  rewrite (drain_idle w1 Hq1) in Hd1. injection Hd1 as <-.
  exists (copied (iter wd) (live wd)), w1, (copied (iter w1) (live w1)), w2.
  split_and!; try done.
  by rewrite !copied_perm, Hl1.
Qed.

(** X15.  [Remove(id)] then [Clients()]: the snapshot has as many records
    as the count [Remove] returned, and none of them has the id. *)
Theorem Remove_then_Clients_omits_it clientID w :
  wf_world w →
  ∃ n w1 snapshot w2,
    Clients_Remove clientID w = Ok (n, w1) ∧
    Clients_Clients w1 = Ok (snapshot, w2) ∧
    Z.of_nat (length snapshot) = n ∧
    (∀ p c, Some p ∈ snapshot → heap w2 !! p = Some c → ID c ≠ clientID).
Proof.
  intros Hwf.
  destruct (Remove_spec clientID w Hwf)
    as (wd & w1 & _ & _ & _ & _ & Hrm & Hw1 & Hq1 & Hl1 & _).
  destruct (Clients_spec w1 Hw1) as (wd1 & w2 & Hd1 & _ & Hc & [Hwl2 _] & _ & Hl2 & _).
  rewrite (drain_idle w1 Hq1) in Hd1. injection Hd1 as <-.
  exists (len (live w1)), w1, (copied (iter w1) (live w1)), w2.
  split_and!; try done.
  - unfold len. f_equal.
    by rewrite (copied_perm (iter w1) (live w1)), !length_fmap, length_map_to_list.
  - intros p c Hin Hp Hid. rewrite (copied_perm (iter w1) (live w1)) in Hin.
    rewrite (list_elem_of_fmap_inj Some), list_elem_of_fmap in Hin.
    destruct Hin as ([k p'] & -> & Hk%elem_of_map_to_list).
    simpl in Hp. pose proof Hk as Hk2. rewrite <-Hl2 in Hk2.
    specialize (Hwl2 _ _ Hk2). simpl in Hwl2. rewrite Hp in Hwl2.
    injection Hwl2 as Hck. rewrite Hl1 in Hk.
    rewrite <-Hck, Hid, lookup_delete_eq in Hk. done.
Qed.

(** X16.  A snapshot of [Clients()] has no nil entry and no two records
    with the same [ID]. *)
Theorem Clients_snapshot_has_distinct_IDs w :
  wf_world w →
  ∃ snapshot w',
    Clients_Clients w = Ok (snapshot, w') ∧
    Forall is_Some snapshot ∧
    (∀ i j p1 p2 c1 c2,
       snapshot !! i = Some (Some p1) → snapshot !! j = Some (Some p2) →
       heap w' !! p1 = Some c1 → heap w' !! p2 = Some c2 →
       ID c1 = ID c2 → i = j).
Proof.
  intros Hwf.
  destruct (Clients_spec w Hwf) as (wd & w' & _ & [Hwd _] & Hc & [Hwl _] & _ & Hl & _).
  pose proof (copied_perm (iter wd) (live wd)) as Hperm.
  exists (copied (iter wd) (live wd)), w'. split_and!; try done.
  - rewrite Hperm. apply Forall_fmap, Forall_forall. by eauto.
  - assert (∀ p c, Some p ∈ copied (iter wd) (live wd) → heap w' !! p = Some c →
                   live wd !! ID c = Some p) as Hkey.
    { intros p c Hin Hp. rewrite Hperm in Hin.
      rewrite (list_elem_of_fmap_inj Some), list_elem_of_fmap in Hin.
      destruct Hin as ([k p'] & -> & Hk%elem_of_map_to_list).
      simpl in Hp. pose proof Hk as Hk2. rewrite <-Hl in Hk2.
      specialize (Hwl _ _ Hk2). simpl in Hwl. rewrite Hp in Hwl.
      by injection Hwl as ->. }
    intros i j p p2 c d Hi Hj Hp Hq Hid.
    assert (NoDup (copied (iter wd) (live wd))) as Hnd.
    { rewrite Hperm. apply (NoDup_fmap_2 _). by apply wf_live_NoDup. }
    apply (NoDup_lookup _ i j (Some p) Hnd Hi).
    pose proof (Hkey p c (list_elem_of_lookup_2 _ _ _ Hi) Hp) as Kp.
    pose proof (Hkey p2 d (list_elem_of_lookup_2 _ _ _ Hj) Hq) as Kq.
    rewrite Hid in Kp. rewrite Kp in Kq. by injection Kq as <-.
Qed.

(** ** More on the listener *)

(** X17.  A lookup request ([eTypeClient]) served after the requests [evs]
    is answered, on its own channel, with the record the map has for its id
    once the add and remove requests of [evs] are applied in order, nil when
    there is none; serving it changes neither the map nor the contexts
    called. *)
Theorem lookup_request_answers_from_map evs ev w :
  wf_live w → wf_queue w (evs ++ [ev]) → ev_Type ev = eTypeClient →
  ∃ w1 w' ch,
    listener evs w = Ok w1 ∧ listener (evs ++ [ev]) w = Ok w' ∧
    ev_Response ev = Some ch ∧
    rchans w' !! ch =
      Some (Some (Some (MkResponse [] 0
        (apply_requests (live w) (requests_of (heap w) evs) !! ev_ClientID ev)))) ∧
    live w' = live w1 ∧ dones (trace w') = dones (trace w1).
Proof.
  intros Hl Hq Ht.
  destruct (listener_total evs w Hl) as (w1 & Hrun & Hl1).
  { by eapply wf_queue_app_l. }
  pose proof (listener_wf_queue _ _ _ _ Hrun Hq) as [Hev _].
  apply Forall_cons in Hev as [Hev _]. unfold wf_event in Hev. rewrite Ht in Hev.
  destruct (ev_Response ev) as [ch|] eqn:Er; simpl in Hev; [|done].
  destruct (listener_frame _ _ _ Hrun) as (_ & _ & _ & _ & _ & _ & _ & Hlive).
  eexists w1, _, ch. split; [done|]. split.
  { rewrite listener_app, Hrun. simpl. by rewrite (step_client ev w1 ch). }
  simpl. split_and!; try done.
  - rewrite list_lookup_insert_eq by (by eapply lookup_lt_Some). by rewrite Hlive.
  - unfold dones. by rewrite omap_app, app_nil_r.
Qed.

Lemma listener_step_replies ev w w' :
  listener_step ev w = Ok w' →
  replies (trace w') = replies (trace w) ++ option_list (reply_chan ev).
Proof.
  unfold listener_step, reply_chan, deref, replies. destruct (ev_Type ev).
  - destruct (ev_Client ev) as [p|]; [|done]. simpl.
    destruct (heap w !! p); [|done]. simpl. intros [= <-]. by rewrite app_nil_r.
  - intros (ch & -> & _ & ->)%send_Ok. simpl. by rewrite omap_app.
  - destruct (live w !! ev_ClientID ev) as [p|].
    + destruct (heap w !! p); [|done]. simpl.
      intros (ch & -> & _ & ->)%send_Ok. simpl. rewrite !omap_app. simpl.
      by rewrite app_nil_r.
    + intros (ch & -> & _ & ->)%send_Ok. simpl. by rewrite omap_app.
  - intros [= <-]. by rewrite app_nil_r.
  - intros (ch & -> & _ & ->)%send_Ok. simpl. by rewrite omap_app.
Qed.

(** X18.  The listener answers the list, remove and lookup requests, once
    each, on their own channels and in the order of arrival; it answers no
    insert and no [eTypeActiveClientCount] request.  Every reply is still on
    its channel when the sequence is served. *)
Theorem listener_replies_once_each evs w :
  wf_live w → wf_queue w evs →
  ∃ w',
    listener evs w = Ok w' ∧
    replies (trace w') = replies (trace w) ++ omap reply_chan evs ∧
    ∀ ch, ch ∈ omap reply_chan evs → ∃ r, rchans w' !! ch = Some (Some r).
Proof.
  revert w. induction evs as [|ev evs IH]; intros w Hl Hq.
  - exists w. split_and!; [done|by rewrite app_nil_r|]. by intros ch Hin%elem_of_nil.
  - destruct (listener_step_total ev w Hl) as [w1 Hs].
    { destruct Hq as [Hall _]. by apply Forall_cons in Hall as [? _]. }
    pose proof (listener_step_wf_live _ _ _ Hs Hl) as Hl1.
    pose proof (wf_queue_step _ _ _ _ Hs Hq) as Hq1.
    destruct (IH w1 Hl1 Hq1) as (w' & Hrun & Hrep & Hdel).
    exists w'. cbn [listener]. rewrite Hs. simpl. split_and!; [done| |].
    + rewrite Hrep, (listener_step_replies _ _ _ Hs), <-app_assoc. f_equal.
      by destruct (reply_chan ev).
    + intros ch Hin. destruct (decide (ch ∈ omap reply_chan evs)) as [|Hni]; [by apply Hdel|].
      destruct (reply_chan ev) as [ch'|] eqn:Ech; [|done].
      apply elem_of_cons in Hin as [->|]; [|done].
      destruct (listener_step_reply _ _ _ _ Hs Ech) as [r Hr].
      destruct (listener_frame _ _ _ Hrun) as (_ & _ & _ & _ & _ & _ & Hfr & _).
      exists r. by rewrite Hfr.
Qed.

Lemma listener_step_dones ev w w' :
  wf_live w → listener_step ev w = Ok w' →
  ∃ ds, dones (trace w') = dones (trace w) ++ ds ∧
        (length ds ≤ length (filter (λ e, ev_Type e = eTypeRemoveClient) [ev]))%nat ∧
        Forall (λ d, ∃ c, c ∈ heap w ∧ Ctx c = d ∧
                          ev_Type ev = eTypeRemoveClient ∧ ID c = ev_ClientID ev) ds.
Proof.
  intros Hl Hs.
  assert (dones (trace w') = dones (trace w) ++ [] →
    ∃ ds, dones (trace w') = dones (trace w) ++ ds ∧
      (length ds ≤ length (filter (λ e, ev_Type e = eTypeRemoveClient) [ev]))%nat ∧
      Forall (λ d, ∃ c, c ∈ heap w ∧ Ctx c = d ∧
                        ev_Type ev = eTypeRemoveClient ∧ ID c = ev_ClientID ev) ds)
    as Hnone.
  { intros Hd. exists []. split_and!; [done|simpl; lia|done]. }
  revert Hs. unfold listener_step, deref, dones.
  destruct (ev_Type ev) eqn:Et.
  - destruct (ev_Client ev) as [p|]; [|done]. simpl.
    destruct (heap w !! p); [|done]. simpl. intros [= <-].
    apply Hnone. by rewrite app_nil_r.
  - intros (ch & _ & _ & ->)%send_Ok. apply Hnone. unfold dones. simpl.
    by rewrite omap_app.
  - destruct (live w !! ev_ClientID ev) as [p|] eqn:El.
    + pose proof (Hl _ _ El) as Hp. simpl in Hp.
      destruct (heap w !! p) as [c|] eqn:Hc; [|done]. simpl. injection Hp as Hid.
      intros (ch & _ & _ & ->)%send_Ok. exists [Ctx c]. simpl.
      rewrite !omap_app. simpl. rewrite app_nil_r.
      rewrite filter_cons_True by done. split_and!; [done|simpl; lia|].
      apply Forall_singleton. exists c. split_and!; try done.
      by eapply list_elem_of_lookup_2.
    + intros (ch & _ & _ & ->)%send_Ok. apply Hnone. unfold dones. simpl.
      by rewrite omap_app.
  - intros [= <-]. apply Hnone. by rewrite app_nil_r.
  - intros (ch & _ & _ & ->)%send_Ok. apply Hnone. unfold dones. simpl.
    by rewrite omap_app.
Qed.

(** X19.  The listener calls [Done()] only while serving a remove request:
    over a sequence of requests, at most one call for each remove request,
    each on the context of an allocated record whose [ID] is the id of a
    remove request of the sequence.  Serving inserts (also ones that
    overwrite an entry), list and lookup requests calls [Done()] on nothing. *)
Theorem Done_only_for_removes evs w :
  wf_live w → wf_queue w evs →
  ∃ w' ds,
    listener evs w = Ok w' ∧
    dones (trace w') = dones (trace w) ++ ds ∧
    (length ds ≤ length (filter (λ e, ev_Type e = eTypeRemoveClient) evs))%nat ∧
    Forall (λ d, ∃ c ev, c ∈ heap w ∧ Ctx c = d ∧ ev ∈ evs ∧
                         ev_Type ev = eTypeRemoveClient ∧ ID c = ev_ClientID ev) ds.
Proof.
  revert w. induction evs as [|ev evs IH]; intros w Hl Hq.
  - exists w, []. split_and!; [done|by rewrite app_nil_r|done|done].
  - destruct (listener_step_total ev w Hl) as [w1 Hs].
    { destruct Hq as [Hall _]. by apply Forall_cons in Hall as [? _]. }
    pose proof (listener_step_wf_live _ _ _ Hs Hl) as Hl1.
    pose proof (wf_queue_step _ _ _ _ Hs Hq) as Hq1.
    destruct (listener_step_frame _ _ _ Hs) as (Hh & _).
    destruct (listener_step_dones _ _ _ Hl Hs) as (ds1 & Hd1 & Hlen1 & Hall1).
    destruct (IH w1 Hl1 Hq1) as (w' & ds & Hrun & Hd & Hlen & Hall).
    exists w', (ds1 ++ ds). cbn [listener]. rewrite Hs. simpl. split_and!; [done| | |].
    + by rewrite Hd, Hd1, app_assoc.
    + change (ev :: evs) with ([ev] ++ evs).
      rewrite filter_app, !length_app. lia.
    + apply Forall_app. split.
      * eapply Forall_impl; [exact Hall1|]. intros d (c & ? & ? & ? & ?).
        exists c, ev. split_and!; try done. apply list_elem_of_here.
      * eapply Forall_impl; [exact Hall|]. intros d (c & e & ? & ? & ? & ? & ?).
        exists c, e. rewrite <-Hh. split_and!; try done. by apply list_elem_of_further.
Qed.

(** X20.  An insert of a record followed by a remove of its id: the map is
    left without the id, whatever was filed under it before, and [Done()] is
    called on the context of the inserted record, not on that of a record it
    replaced. *)
Theorem insert_then_remove ev1 ev2 w p c ch :
  wf_live w →
  ev_Type ev1 = eTypeNewClient → ev_Client ev1 = Some p → heap w !! p = Some c →
  ev_Type ev2 = eTypeRemoveClient → ev_ClientID ev2 = ID c →
  ev_Response ev2 = Some ch → rchans w !! ch = Some None →
  ∃ w',
    listener [ev1; ev2] w = Ok w' ∧
    live w' = delete (ID c) (live w) ∧
    trace w' = trace w ++ [CtxDone (Ctx c); Reply ch None].
Proof.
  intros Hl Ht1 Hc1 Hp Ht2 Hid Hr Hch.
  eexists. cbn [listener]. rewrite (step_new ev1 w p c) by done. simpl.
  rewrite (step_remove_present ev2 _ ch p c); try done.
  - simpl. split_and!; [done| |].
    + unfold live. simpl. by rewrite Hid, delete_insert_eq.
    + simpl. by rewrite <-app_assoc.
  - unfold live. simpl. rewrite Hid. apply lookup_insert_eq.
Qed.

(** X21.  [String()] gives each of the five declared event types a
    different string; the four that have a case get their names, and
    [eTypeClient], which has none, gets "unknown". *)
Theorem eventType_String_distinguishes :
  (∀ a b, eventType_String a = eventType_String b → a = b) ∧
  eventType_String <$>
    [eTypeNewClient; eTypeClientList; eTypeRemoveClient; eTypeActiveClientCount; eTypeClient]
  = ["new_client"; "client_list"; "remove_client"; "active_client_count"; "unknown"].
Proof.
  split; [|done]. by intros [] [].
Qed.

End properties.

(** * The theorems at work on the example states *)

Lemma Remove_absent_noop_present_deletes_witness :
  wf_world busy ∧
  ∃ wd w',
    drain busy = Ok wd ∧
    Clients_Remove "b" busy = Ok (len (live w'), w') ∧
    rchans w' !! length (rchans busy) = Some (Some None) ∧
    match live wd !! "b" with
    | None => live w' = live wd ∧ len (live w') = len (live wd)
    | Some _ =>
        live w' !! "b" = None ∧
        (∀ k, k ≠ "b" → live w' !! k = live wd !! k) ∧
        len (live w') = len (live wd) - 1
    end.
Proof.
  split; [by apply (bool_decide_unpack _)|].
  apply (Remove_absent_noop_present_deletes "b" busy).
  by apply (bool_decide_unpack _).
Defined.

Lemma Remove_idempotent_witness :
  wf_world busy ∧
  ∃ n w1 w2,
    Clients_Remove "b" busy = Ok (n, w1) ∧
    Clients_Remove "b" w1 = Ok (n, w2) ∧
    live w1 !! "b" = None ∧
    live w2 = live w1 ∧
    n = len (live w1) ∧
    trace w2 = trace w1 ++ [Reply (length (rchans w1)) None].
Proof.
  split; [by apply (bool_decide_unpack _)|].
  apply (Remove_idempotent "b" busy).
  by apply (bool_decide_unpack _).
Defined.

(** C1.  [NewClientManager()], then [New(ctx, w, "a")] with the insert
    served: the map has the record under "a", and [Client("a")] returns nil.
    The listener's [case eTypeClient], which no method reaches, would have
    answered with the record. *)
Theorem Client_returns_nil_for_live_id :
  ∃ cli w w',
    Clients_New 1 (MkContext 1) (MkResponseWriter 1) "a" NewClientManager
      = Ok ((cli, 1), w) ∧
    queue w = [] ∧ live w !! "a" = Some cli ∧ ID <$> heap w !! cli = Some "a" ∧
    Clients_Client "a" w = Ok (None, w') ∧
    (w'' ← listener_step (MkEvent eTypeClient "a" None (Some 0%nat)) (add_rchan w);
     Ok (rchans w'' !! 0%nat))
      = Ok (Some (Some (Some (MkResponse [] 0 (Some cli))))).
Proof. eexists _, _, _. split_and!; vm_compute; reflexivity. Qed.

(** C5.  [NewClientManager()], then [New(ctx, w, "a")] with the insert
    served, then [Remove("a")]: the entry is deleted, and all that the
    listener does with the context of the removed record is to call its
    accessor [Done()] once, dropping the channel it returns, before it
    acknowledges.  The context is not cancelled and nothing is sent to
    whoever watches it: the listener has no other action on a context. *)
Theorem Remove_only_calls_Done :
  ∃ cli n w1 m w2,
    Clients_New 1 (MkContext 1) (MkResponseWriter 1) "a" NewClientManager
      = Ok ((cli, n), w1) ∧
    live w1 !! "a" = Some cli ∧ Ctx <$> heap w1 !! cli = Some (MkContext 1) ∧
    Clients_Remove "a" w1 = Ok (m, w2) ∧
    live w2 !! "a" = None ∧
    trace w2 = [CtxDone (MkContext 1); Reply 0%nat None].
Proof. eexists _, _, _, _, _. split_and!; vm_compute; reflexivity. Qed.

(** C7 as stated fails: on a new registry, with the listener serving the
    insert before [New] reads the size, [New] returns 1; the map the insert
    is applied to has size 0. *)
Lemma New_count_counterexample :
  ∃ cli n w',
    wf_world NewClientManager ∧
    drain NewClientManager = Ok NewClientManager ∧
    Clients_New 1 (MkContext 1) (MkResponseWriter 1) "a" NewClientManager
      = Ok ((cli, n), w') ∧
    n = 1 ∧ len (live NewClientManager) = 0 ∧
    n ≠ len (live NewClientManager).
Proof.
  eexists _, _, _. split_and!.
  - by apply (bool_decide_unpack _).
  - reflexivity.
  - vm_compute; reflexivity.
  - reflexivity.
  - reflexivity.
  - by vm_compute.
Qed.

Lemma New_returns_fresh_record_witness :
  wf_world NewClientManager ∧
  ∃ cli n w' c wd,
    Clients_New 0 (MkContext 1) (MkResponseWriter 1) "a" NewClientManager
      = Ok ((cli, n), w') ∧
    heap NewClientManager !! cli = None ∧ heap w' !! cli = Some c ∧
    ID c = "a" ∧ Ctx c = MkContext 1 ∧ ResponseWriter c = MkResponseWriter 1 ∧
    mchans NewClientManager !! Msg c = None ∧
    mchans w' !! Msg c = Some (MsgBuffer (cs NewClientManager)) ∧
    n = len (live w') ∧
    (∃ k, queue w' = drop k (queue NewClientManager
                              ++ [MkEvent eTypeNewClient "" (Some cli) None])) ∧
    settled w' = <["a" := cli]> (settled NewClientManager) ∧
    drain w' = Ok wd ∧ live wd = <["a" := cli]> (settled NewClientManager) ∧
    length (rchans w') = length (rchans NewClientManager) ∧
    (0%nat = 0%nat →
     ∃ q, queue w' = q ++ [MkEvent eTypeNewClient "" (Some cli) None] ∧
       (queue NewClientManager = [] →
        q = [] ∧ live w' = live NewClientManager ∧ n = len (live NewClientManager) ∧
        live <$> serve w' = Ok (<["a" := cli]> (live NewClientManager)))).
Proof.
  assert (wf_world NewClientManager) as Hwf by (by apply (bool_decide_unpack _)).
  split; [done|].
  exact (New_returns_fresh_record 0 (MkContext 1) (MkResponseWriter 1) "a"
           NewClientManager Hwf).
Defined.

Lemma Clients_returns_snapshot_witness :
  wf_world busy ∧
  ∃ wd snapshot w',
    drain busy = Ok wd ∧
    Clients_Clients busy = Ok (snapshot, w') ∧
    snapshot ≡ₚ Some <$> (map_to_list (live wd)).*2 ∧
    NoDup snapshot ∧
    (∀ p, Some p ∈ snapshot ↔ ∃ k, live wd !! k = Some p) ∧
    length snapshot = size (live wd) ∧
    live w' = live wd.
Proof.
  split; [by apply (bool_decide_unpack _)|].
  apply (Clients_returns_snapshot busy).
  by apply (bool_decide_unpack _).
Defined.

Lemma insert_overwrites_witness :
  let ev := MkEvent eTypeNewClient "" (Some 1%nat) None in
  let c := MkClient "a" 1 (MkResponseWriter 2) (MkContext 2) in
  wf_live same_id ∧ ev_Type ev = eTypeNewClient ∧ ev_Client ev = Some 1%nat ∧
  heap same_id !! 1%nat = Some c ∧ live same_id !! ID c = Some 0%nat ∧ 1%nat ≠ 0%nat ∧
  ∃ w',
    listener_step ev same_id = Ok w' ∧
    live w' = <[ID c := 1%nat]> (live same_id) ∧
    live w' !! ID c = Some 1%nat ∧
    (∀ k, live w' !! k ≠ Some 0%nat) ∧
    (∀ k, k ≠ ID c → live w' !! k = live same_id !! k) ∧
    trace w' = trace same_id ∧ rchans w' = rchans same_id ∧
    len (live w') = len (live same_id).
Proof.
  intros ev c.
  assert (wf_live same_id) as Hl by (by apply (bool_decide_unpack _)).
  assert (ev_Type ev = eTypeNewClient) as Ht by reflexivity.
  assert (ev_Client ev = Some 1%nat) as Hc by reflexivity.
  assert (heap same_id !! 1%nat = Some c) as Hp by reflexivity.
  assert (live same_id !! ID c = Some 0%nat) as Hold by (vm_compute; reflexivity).
  assert (1%nat ≠ 0%nat) as Hne by lia.
  split_and!; try done.
  exact (insert_overwrites ev same_id 1%nat c 0%nat Hl Ht Hc Hp Hold Hne).
Defined.

Lemma listener_applies_requests_in_order_witness :
  live two_records = ∅ ∧ wf_queue two_records script ∧
  ∃ w',
    listener script two_records = Ok w' ∧
    live w' = apply_requests ∅ (requests_of (heap two_records) script) ∧
    dom (live w') = live_ids (requests_of (heap two_records) script) ∧
    ∀ pre ev post, script = pre ++ ev :: post →
      ∃ w1 w2,
        listener pre two_records = Ok w1 ∧
        live w1 = apply_requests ∅ (requests_of (heap two_records) pre) ∧
        listener_step ev w1 = Ok w2 ∧
        live w2 = apply_requests ∅ (requests_of (heap two_records) (pre ++ [ev])) ∧
        listener post w2 = Ok w' ∧
        (ev_Type ev = eTypeClientList →
         ∃ ch, ev_Response ev = Some ch ∧
               rchans w2 !! ch
               = Some (Some (Some (MkResponse (copied (iter w1) (live w1)) 0 None)))).
Proof.
  assert (live two_records = ∅) as Hempty by reflexivity.
  assert (wf_queue two_records script) as Hq by (by apply (bool_decide_unpack _)).
  split_and!; try done.
  exact (listener_applies_requests_in_order script two_records Hempty Hq).
Defined.

(** The order of a snapshot is the runtime's: where odd-numbered loops run
    backwards, two calls of [Clients()] in a row list the same records in
    opposite orders. *)
Example Clients_order_varies :
  ('(first, w) ← @Clients_Clients alternating_iteration busy_served;
   '(second, _) ← @Clients_Clients alternating_iteration w;
   Ok (first, second))
  = Ok ([Some 2%nat; Some 0%nat; Some 1%nat], [Some 1%nat; Some 0%nat; Some 2%nat]).
Proof. vm_compute. reflexivity. Qed.

(** * The further theorems at work on the example states *)

Lemma calls_register_ids_witness :
  wf_world busy ∧
  ∃ w' wd,
    run_calls program busy = Ok w' ∧
    dom (settled w') = foldl call_ids (dom (settled busy)) program ∧
    drain w' = Ok wd ∧
    dom (live wd) = foldl call_ids (dom (settled busy)) program.
Proof.
  assert (wf_world busy) as Hwf by (by apply (bool_decide_unpack _)).
  split; [done|]. exact (calls_register_ids program busy Hwf).
Defined.

Lemma queue_stays_bounded_witness :
  wf_world busy ∧ 0 ≤ chan_cap (events (cs busy)) ∧
  Z.of_nat (length (queue busy)) ≤ chan_cap (events (cs busy)) + 1 ∧
  ∃ w',
    run_calls program busy = Ok w' ∧
    chan_cap (events (cs w')) = chan_cap (events (cs busy)) ∧
    Z.of_nat (length (queue w')) ≤ chan_cap (events (cs busy)) + 1.
Proof.
  assert (wf_world busy) as Hwf by (by apply (bool_decide_unpack _)).
  assert (0 ≤ chan_cap (events (cs busy))) as Hcap by (by vm_compute).
  assert (Z.of_nat (length (queue busy)) ≤ chan_cap (events (cs busy)) + 1) as Hq
    by (by vm_compute).
  split_and!; try done. exact (queue_stays_bounded program busy Hwf Hcap Hq).
Defined.

Lemma calls_keep_records_witness :
  wf_world busy ∧
  ∃ w',
    run_calls program busy = Ok w' ∧
    (∀ p c, heap busy !! p = Some c → heap w' !! p = Some c) ∧
    (∀ i n, mchans busy !! i = Some n → mchans w' !! i = Some n) ∧
    MsgBuffer (cs w') = MsgBuffer (cs busy).
Proof.
  assert (wf_world busy) as Hwf by (by apply (bool_decide_unpack _)).
  split; [done|]. exact (calls_keep_records program busy Hwf).
Defined.

Lemma New_takes_effect_witness :
  wf_world busy ∧
  ∃ cli n w' wd c,
    Clients_New 0 (MkContext 4) (MkResponseWriter 4) "a" busy = Ok ((cli, n), w') ∧
    drain w' = Ok wd ∧
    live wd !! "a" = Some cli ∧
    heap wd !! cli = Some c ∧
    ID c = "a" ∧ Ctx c = MkContext 4 ∧ ResponseWriter c = MkResponseWriter 4 ∧
    (∀ k, k ≠ "a" → live wd !! k = settled busy !! k).
Proof.
  assert (wf_world busy) as Hwf by (by apply (bool_decide_unpack _)).
  split; [done|].
  exact (New_takes_effect 0 (MkContext 4) (MkResponseWriter 4) "a" busy Hwf).
Defined.

Lemma New_then_Clients_lists_it_witness :
  wf_world busy ∧
  ∃ cli n w1 snapshot w2,
    Clients_New 0 (MkContext 4) (MkResponseWriter 4) "d" busy = Ok ((cli, n), w1) ∧
    Clients_Clients w1 = Ok (snapshot, w2) ∧
    Some cli ∈ snapshot ∧
    live w2 !! "d" = Some cli ∧
    ID <$> heap w2 !! cli = Some "d".
Proof.
  assert (wf_world busy) as Hwf by (by apply (bool_decide_unpack _)).
  split; [done|].
  exact (New_then_Clients_lists_it 0 (MkContext 4) (MkResponseWriter 4) "d" busy Hwf).
Defined.

Lemma New_then_Remove_pokes_its_context_witness :
  wf_world busy ∧
  ∃ cli n w1 m w2 t,
    Clients_New 0 (MkContext 4) (MkResponseWriter 4) "a" busy = Ok ((cli, n), w1) ∧
    Clients_Remove "a" w1 = Ok (m, w2) ∧
    live w2 = delete "a" (settled busy) ∧
    live w2 !! "a" = None ∧
    trace w2 = t ++ [CtxDone (MkContext 4); Reply (length (rchans busy)) None].
Proof.
  assert (wf_world busy) as Hwf by (by apply (bool_decide_unpack _)).
  split; [done|].
  exact (New_then_Remove_pokes_its_context 0 (MkContext 4) (MkResponseWriter 4) "a"
           busy Hwf).
Defined.

Lemma New_twice_distinct_records_witness :
  wf_world busy ∧
  ∃ cli1 n1 w1 cli2 n2 w2 c1 c2,
    Clients_New 0 (MkContext 4) (MkResponseWriter 4) "d" busy = Ok ((cli1, n1), w1) ∧
    Clients_New 2 (MkContext 5) (MkResponseWriter 5) "d" w1 = Ok ((cli2, n2), w2) ∧
    cli1 ≠ cli2 ∧
    heap w1 !! cli1 = Some c1 ∧ heap w2 !! cli1 = Some c1 ∧
    heap w2 !! cli2 = Some c2 ∧
    Msg c1 ≠ Msg c2 ∧
    mchans w2 !! Msg c1 = Some (MsgBuffer (cs busy)) ∧
    mchans w2 !! Msg c2 = Some (MsgBuffer (cs busy)).
Proof.
  assert (wf_world busy) as Hwf by (by apply (bool_decide_unpack _)).
  split; [done|].
  exact (New_twice_distinct_records 0 (MkContext 4) (MkResponseWriter 4) "d"
           2 (MkContext 5) (MkResponseWriter 5) "d" busy Hwf).
Defined.

Lemma New_then_Active_witness :
  wf_world busy ∧
  ∃ cli n w' wd,
    Clients_New 0 (MkContext 4) (MkResponseWriter 4) "c" busy = Ok ((cli, n), w') ∧
    drain w' = Ok wd ∧
    Clients_Active wd =
      len (settled busy) + match settled busy !! "c" with Some _ => 0 | None => 1 end.
Proof.
  assert (wf_world busy) as Hwf by (by apply (bool_decide_unpack _)).
  split; [done|].
  exact (New_then_Active 0 (MkContext 4) (MkResponseWriter 4) "c" busy Hwf).
Defined.

Lemma New_panics_iff_buffer_out_of_range_witness :
  wf_live negative_buffer ∧ wf_queue negative_buffer (queue negative_buffer) ∧
  (Clients_New 0 (MkContext 1) (MkResponseWriter 1) "a" negative_buffer = Panic
   ↔ MsgBuffer (cs negative_buffer) < 0 ∨ chan_max < MsgBuffer (cs negative_buffer)).
Proof.
  assert (wf_live negative_buffer) as Hl by (by apply (bool_decide_unpack _)).
  assert (wf_queue negative_buffer (queue negative_buffer)) as Hq
    by (by apply (bool_decide_unpack _)).
  split; [done|]. split; [done|].
  exact (New_panics_iff_buffer_out_of_range 0 (MkContext 1) (MkResponseWriter 1) "a"
           negative_buffer Hl Hq).
Defined.

Lemma Active_quiescent_witness :
  wf_world busy_served ∧ queue busy_served = [] ∧
  ∃ snapshot w',
    Clients_Clients busy_served = Ok (snapshot, w') ∧
    Clients_Active busy_served = Z.of_nat (length snapshot) ∧
    Clients_Active w' = Clients_Active busy_served.
Proof.
  assert (wf_world busy_served) as Hwf by (by apply (bool_decide_unpack _)).
  assert (queue busy_served = []) as Hq by reflexivity.
  split_and!; try done. exact (Active_quiescent busy_served Hwf Hq).
Defined.

Lemma Client_is_Clients_without_the_list_witness :
  wf_world busy ∧
  ∃ snapshot w',
    Clients_Clients busy = Ok (snapshot, w') ∧
    Clients_Client "a" busy = Ok (None, w').
Proof.
  assert (wf_world busy) as Hwf by (by apply (bool_decide_unpack _)).
  split; [done|]. exact (Client_is_Clients_without_the_list "a" busy Hwf).
Defined.

Lemma Range_calls_visitor_once_per_record_witness :
  wf_world busy ∧
  ∃ w',
    Clients_Range (λ _ k, S k) 0%nat busy = Ok (size (settled busy), w') ∧
    queue w' = [] ∧ live w' = settled busy ∧
    (settled busy = ∅ →
     ∀ V (f : option nat → V → V) (v : V), Clients_Range f v busy = Ok (v, w')).
Proof.
  assert (wf_world busy) as Hwf by (by apply (bool_decide_unpack _)).
  split; [done|]. exact (Range_calls_visitor_once_per_record busy Hwf).
Defined.

Lemma Clients_twice_same_records_witness :
  wf_world busy ∧
  ∃ first w1 second w2,
    Clients_Clients busy = Ok (first, w1) ∧
    Clients_Clients w1 = Ok (second, w2) ∧
    first ≡ₚ second ∧ live w2 = live w1.
Proof.
  assert (wf_world busy) as Hwf by (by apply (bool_decide_unpack _)).
  split; [done|]. exact (Clients_twice_same_records busy Hwf).
Defined.

Lemma Remove_then_Clients_omits_it_witness :
  wf_world busy ∧
  ∃ n w1 snapshot w2,
    Clients_Remove "a" busy = Ok (n, w1) ∧
    Clients_Clients w1 = Ok (snapshot, w2) ∧
    Z.of_nat (length snapshot) = n ∧
    (∀ p c, Some p ∈ snapshot → heap w2 !! p = Some c → ID c ≠ "a").
Proof.
  assert (wf_world busy) as Hwf by (by apply (bool_decide_unpack _)).
  split; [done|]. exact (Remove_then_Clients_omits_it "a" busy Hwf).
Defined.

Lemma Clients_snapshot_has_distinct_IDs_witness :
  wf_world busy ∧
  ∃ snapshot w',
    Clients_Clients busy = Ok (snapshot, w') ∧
    Forall is_Some snapshot ∧
    (∀ i j p1 p2 c1 c2,
       snapshot !! i = Some (Some p1) → snapshot !! j = Some (Some p2) →
       heap w' !! p1 = Some c1 → heap w' !! p2 = Some c2 →
       ID c1 = ID c2 → i = j).
Proof.
  assert (wf_world busy) as Hwf by (by apply (bool_decide_unpack _)).
  split; [done|]. exact (Clients_snapshot_has_distinct_IDs busy Hwf).
Defined.

Lemma lookup_request_answers_from_map_witness :
  let evs := [MkEvent eTypeNewClient "" (Some 0%nat) None;
              MkEvent eTypeNewClient "" (Some 1%nat) None;
              MkEvent eTypeRemoveClient "b" None (Some 1%nat)] in
  let ev := MkEvent eTypeClient "a" None (Some 0%nat) in
  wf_live two_records ∧ wf_queue two_records (evs ++ [ev]) ∧ ev_Type ev = eTypeClient ∧
  ∃ w1 w' ch,
    listener evs two_records = Ok w1 ∧ listener (evs ++ [ev]) two_records = Ok w' ∧
    ev_Response ev = Some ch ∧
    rchans w' !! ch =
      Some (Some (Some (MkResponse [] 0
        (apply_requests (live two_records) (requests_of (heap two_records) evs)
           !! ev_ClientID ev)))) ∧
    live w' = live w1 ∧ dones (trace w') = dones (trace w1).
Proof.
  intros evs ev.
  assert (wf_live two_records) as Hl by (by apply (bool_decide_unpack _)).
  assert (wf_queue two_records (evs ++ [ev])) as Hq by (by apply (bool_decide_unpack _)).
  assert (ev_Type ev = eTypeClient) as Ht by reflexivity.
  split_and!; try done.
  exact (lookup_request_answers_from_map evs ev two_records Hl Hq Ht).
Defined.

Lemma listener_replies_once_each_witness :
  wf_live two_records ∧ wf_queue two_records script ∧
  ∃ w',
    listener script two_records = Ok w' ∧
    replies (trace w') = replies (trace two_records) ++ omap reply_chan script ∧
    ∀ ch, ch ∈ omap reply_chan script → ∃ r, rchans w' !! ch = Some (Some r).
Proof.
  assert (wf_live two_records) as Hl by (by apply (bool_decide_unpack _)).
  assert (wf_queue two_records script) as Hq by (by apply (bool_decide_unpack _)).
  split_and!; try done. exact (listener_replies_once_each script two_records Hl Hq).
Defined.

Lemma Done_only_for_removes_witness :
  wf_live two_records ∧ wf_queue two_records script ∧
  ∃ w' ds,
    listener script two_records = Ok w' ∧
    dones (trace w') = dones (trace two_records) ++ ds ∧
    (length ds ≤ length (filter (λ e, ev_Type e = eTypeRemoveClient) script))%nat ∧
    Forall (λ d, ∃ c ev, c ∈ heap two_records ∧ Ctx c = d ∧ ev ∈ script ∧
                         ev_Type ev = eTypeRemoveClient ∧ ID c = ev_ClientID ev) ds.
Proof.
  assert (wf_live two_records) as Hl by (by apply (bool_decide_unpack _)).
  assert (wf_queue two_records script) as Hq by (by apply (bool_decide_unpack _)).
  split_and!; try done. exact (Done_only_for_removes script two_records Hl Hq).
Defined.

Lemma insert_then_remove_witness :
  let ev1 := MkEvent eTypeNewClient "" (Some 1%nat) None in
  let ev2 := MkEvent eTypeRemoveClient "a" None (Some 0%nat) in
  let c := MkClient "a" 1 (MkResponseWriter 2) (MkContext 2) in
  wf_live same_id_waiting ∧
  ev_Type ev1 = eTypeNewClient ∧ ev_Client ev1 = Some 1%nat ∧
  heap same_id_waiting !! 1%nat = Some c ∧
  ev_Type ev2 = eTypeRemoveClient ∧ ev_ClientID ev2 = ID c ∧
  ev_Response ev2 = Some 0%nat ∧ rchans same_id_waiting !! 0%nat = Some None ∧
  ∃ w',
    listener [ev1; ev2] same_id_waiting = Ok w' ∧
    live w' = delete (ID c) (live same_id_waiting) ∧
    trace w' = trace same_id_waiting ++ [CtxDone (Ctx c); Reply 0%nat None].
Proof.
  intros ev1 ev2 c.
  assert (wf_live same_id_waiting) as Hl by (by apply (bool_decide_unpack _)).
  split_and!; try done.
  exact (insert_then_remove ev1 ev2 same_id_waiting 1%nat c 0%nat Hl
           eq_refl eq_refl eq_refl eq_refl eq_refl eq_refl eq_refl).
Defined.

(** On a machine that makes buffers of up to 2^20 elements, [New] with a
    [MsgBuffer] of 2^60 panics in [make]. *)
Example New_panics_on_huge_buffer :
  Clients_New 0 (MkContext 1) (MkResponseWriter 1) "a" huge_buffer = Panic.
Proof. vm_compute. reflexivity. Qed.

End Sse.
